(** * The support-case reconciler of the Google Cloud support Slack bot

    A shallow embedding of
    [tools/google-cloud-support-slackbot/case_updates.py]: the polling loop
    [case_updates], the auto-subscription routine [auto_cc] and its helper
    [tracking_check].

    The Python code talks to Firestore, to the Cloud Support API, to the
    Resource Manager API and to Slack through functions that live in other
    modules.  Those collaborators are taken as an [Env]ironment of functions
    over an abstract world [W]; the program itself is written in a small
    monad that threads the world and the two local variables that survive
    from one loop iteration to the next ([guid] and [first_doc_in]), collects
    the calls made to the collaborators in a log, and propagates Python
    exceptions.  The set-up that precedes the loop (environment variables,
    discovery document, Firebase initialisation) only builds the service
    objects, which are part of the environment here. *)

From Stdlib Require Import String Ascii List Bool Arith Lia DecimalString.
Import ListNotations.
Open Scope string_scope.
Open Scope list_scope.

(** ** Data *)

(** A comment of a case, as the reconciler reads it: [comment["creator"]]
    and [comment["body"]].  The class that builds the comments is in another
    module; the creator is an identity string, as the data model of the
    specification has it, and the test ["googleSupport" in creator] is the
    substring test of Python strings. *)
Record comment := mkComment {
  creator : string;
  body : string;
  create_time : string
}.

(** The dictionary of a case: [vars(SupportCase(...))] for a fetched case, a
    Firestore document for a stored snapshot.  Only the keys the loop reads
    are kept. *)
Record case := mkCase {
  case_number : string;
  update_time : string;
  comment_list : list comment;
  priority : string;
  escalated : bool
}.

(** The document [get_firestore_first_in] returns; the loop reads its
    ["guid"] key only. *)
Record first_doc := mkFirstDoc { doc_guid : string }.

(** A document of a channel's [organizations], [folders] or [projects]
    sub-collection, as [tracking_check] reads it. *)
Record asset_item := mkItem {
  asset_id : string;
  channel_id : string;
  cc_list : list string;
  user_id : string
}.

(** The project resource returned by [projects.get(...).execute()]; the key
    ["parent"] may be missing. *)
Record project := mkProject { project_parent : option string }.

(** Python exceptions that the code can meet. *)
Inductive exn :=
| BrokenPipeError
| NameError
| UnboundLocalError
| TypeError
| IndexError
| KeyError
| AttributeError
| OtherError (name : string).

(** [except NameError] also catches its subclass [UnboundLocalError]. *)
Definition is_NameError (e : exn) : bool :=
  match e with
  | NameError | UnboundLocalError => true
  | _ => false
  end.

Definition is_BrokenPipeError (e : exn) : bool :=
  match e with
  | BrokenPipeError => true
  | _ => false
  end.

Inductive result (A : Type) :=
| Ok (a : A)
| Raise (e : exn).
Arguments Ok {A} a.
Arguments Raise {A} e.

(** The second argument of [notify_slack]. *)
Inductive event_kind :=
| Closed        (* "closed" *)
| Comment       (* "comment" *)
| Priority      (* "priority" *)
| Escalated     (* "escalated" *)
| DeEscalated.  (* "de-escalated" *)

(** The first argument of [notify_slack]: the case number everywhere but at
    the "escalated" call, which passes the whole dictionary. *)
Inductive subject :=
| ByNumber (cn : string)
| ByCase (c : case).

(** The third argument of [notify_slack]. *)
Inductive payload :=
| PStr (s : string)
| PBool (b : bool).

(** Calls to the collaborators; a write, a first-writer lookup and a
    subscription are logged with what they returned. *)
Inductive action :=
| AGetCases
| ASearch
| ALog (e : exn)
| ASleep (secs : nat)
| AWrite (collection : string) (c : case) (g : string)
| AFirstIn (cn ut : string) (d : option first_doc)
| ANotify (subj : subject) (k : event_kind) (p : payload)
| ADelete (cn : string)
| AGetParent (cn : string)
| AProjectGet (name : string)
| ASubscribe (channel case_num : string) (cc : list string) (user : string)
             (new_emails : list string)
| AAddComment (channel case_num response user author : string)
              (notify : bool).

Definition SENTINEL : string := "2100-12-31 23:59:59+00:00".

Definition comment_eq_dec (a b : comment) : {a = b} + {a <> b}.
Proof. decide equality; apply string_dec. Defined.

Definition comments_eq_dec : forall a b : list comment, {a = b} + {a <> b} :=
  list_eq_dec comment_eq_dec.

Definition set_update_time (c : case) (ut : string) : case :=
  mkCase (case_number c) ut (comment_list c) (priority c) (escalated c).

(** ** Strings: the Python operations the code uses *)

(** [prefix_rest p s] is what follows [p] in [s] when [s] starts with [p]. *)
Fixpoint prefix_rest (p s : string) : option string :=
  match p with
  | EmptyString => Some s
  | String a p' =>
      match s with
      | EmptyString => None
      | String b s' => if Ascii.eqb a b then prefix_rest p' s' else None
      end
  end.

(** [needle in hay] on Python strings. *)
Fixpoint contains (needle hay : string) : bool :=
  match prefix_rest needle hay with
  | Some _ => true
  | None =>
      match hay with
      | EmptyString => false
      | String _ hay' => contains needle hay'
      end
  end.

(** The longest prefix of [s] whose characters satisfy [f]. *)
Fixpoint take_while (f : ascii -> bool) (s : string) : string :=
  match s with
  | EmptyString => EmptyString
  | String c s' => if f c then String c (take_while f s') else EmptyString
  end.

Definition not_slash (c : ascii) : bool := negb (Ascii.eqb c "/"%char).

(** [\d], on the ASCII characters strings are made of here. *)
Definition is_digit (c : ascii) : bool :=
  let n := nat_of_ascii c in (48 <=? n)%nat && (n <=? 57)%nat.

(** A match of the pattern [lit cls+] at the start of [s]: the literal
    [lit] followed by the longest non-empty run of characters in [cls]. *)
Definition match_here (lit : string) (cls : ascii -> bool) (s : string)
  : option string :=
  match prefix_rest lit s with
  | None => None
  | Some rest =>
      match take_while cls rest with
      | EmptyString => None
      | run => Some (lit ++ run)%string
      end
  end.

(** [re.search(lit cls+, s)]: the leftmost match, [None] when there is
    none. *)
Fixpoint re_search (lit : string) (cls : ascii -> bool) (s : string)
  : option string :=
  match match_here lit cls s with
  | Some m => Some m
  | None =>
      match s with
      | EmptyString => None
      | String _ s' => re_search lit cls s'
      end
  end.

(** [re.findall(lit cls+, s)]: the matches from left to right, each search
    resuming where the previous match ended ([skip] characters are still
    covered by it). *)
Fixpoint re_findall_from (skip : nat) (lit : string) (cls : ascii -> bool)
  (s : string) : list string :=
  match s with
  | EmptyString => []
  | String _ s' =>
      match skip with
      | S k => re_findall_from k lit cls s'
      | O =>
          match match_here lit cls s with
          | Some m => m :: re_findall_from (String.length m - 1) lit cls s'
          | None => re_findall_from 0 lit cls s'
          end
      end
  end.

Definition re_findall := re_findall_from 0.

(** [s.split("/")]. *)
Fixpoint split_slash_acc (cur : string) (s : string) : list string :=
  match s with
  | EmptyString => [cur]
  | String c s' =>
      if Ascii.eqb c "/"%char then cur :: split_slash_acc EmptyString s'
      else split_slash_acc (cur ++ String c EmptyString)%string s'
  end.

Definition split_slash : string -> list string := split_slash_acc EmptyString.

(** [list(s)]: what [extend] appends when it is given a string. *)
Fixpoint chars (s : string) : list string :=
  match s with
  | EmptyString => []
  | String c s' => String c EmptyString :: chars s'
  end.

(** [", ".join(l)]. *)
Definition join (l : list string) : string := String.concat ", " l.

(** ** The collaborators *)

(** The functions [case_updates.py] imports, over a world [W] that stands
    for Firestore, the two Google APIs and Slack together (other processes
    may change it during any call); [raw] is a case as the Support API
    returns it.  The search, [SupportCase] and the two hierarchy lookups
    may raise; the calls to the store, to Slack and to the comment API are
    taken to return. *)
Record Env (W raw : Type) := mkEnv {
  get_firestore_cases : W -> list case * W;
  search_execute : W -> result (list raw) * W;
  SupportCase : raw -> W -> result case * W;
  firestore_write : string -> case -> W -> string * W;
  get_firestore_first_in : string -> string -> W -> option first_doc * W;
  firestore_delete_cases : string -> W -> W;
  notify_slack : subject -> event_kind -> payload -> W -> W;
  sleep : nat -> W -> W;
  tracked_assets : W -> list string * W;
  get_parent : string -> W -> result string * W;
  projects_get : string -> W -> result project * W;
  asset_collection : string -> string -> W -> list asset_item * W;
  support_subscribe_email :
    string -> string -> list string -> string -> W -> list string * W;
  support_add_comment :
    string -> string -> string -> string -> string -> bool -> W -> W
}.
Arguments get_firestore_cases {W raw}.
Arguments search_execute {W raw}.
Arguments SupportCase {W raw}.
Arguments firestore_write {W raw}.
Arguments get_firestore_first_in {W raw}.
Arguments firestore_delete_cases {W raw}.
Arguments notify_slack {W raw}.
Arguments sleep {W raw}.
Arguments tracked_assets {W raw}.
Arguments get_parent {W raw}.
Arguments projects_get {W raw}.
Arguments asset_collection {W raw}.
Arguments support_subscribe_email {W raw}.
Arguments support_add_comment {W raw}.

(** The variables of [case_updates] that live across loop iterations: the
    world, and [guid] and [first_doc_in], which are unbound ([None]) until
    their first assignment.  [first_doc_in] may hold Python's [None]
    ([Some None]). *)
Record locals (W : Type) := mkLocals {
  world : W;
  guid : option string;
  first_doc_in : option (option first_doc)
}.
Arguments mkLocals {W}.
Arguments world {W}.
Arguments guid {W}.
Arguments first_doc_in {W}.

(** ** The monad: state, log of calls, exceptions *)

Definition M (S A : Type) : Type := S -> list action * (result A * S).

Definition ret {S A} (a : A) : M S A := fun s => ([], (Ok a, s)).

Definition raise {S A} (e : exn) : M S A := fun s => ([], (Raise e, s)).

Definition bind {S A B} (m : M S A) (f : A -> M S B) : M S B :=
  fun s =>
    match m s with
    | (l1, (Ok a, s1)) => let '(l2, rs) := f a s1 in (l1 ++ l2, rs)
    | (l1, (Raise e, s1)) => (l1, (Raise e, s1))
    end.

Declare Scope monad_scope.
Delimit Scope monad_scope with monad.
Notation "x <- m ;; k" := (bind m (fun x => k))
  (at level 61, m at next level, right associativity) : monad_scope.
Notation "m ;; k" := (bind m (fun _ => k))
  (at level 61, right associativity) : monad_scope.
Open Scope monad_scope.

Definition emit {S} (a : action) : M S unit := fun s => ([a], (Ok tt, s)).

(** The log of a run and its outcome. *)
Definition log_of {S A} (r : list action * (result A * S)) : list action :=
  fst r.
Definition outcome_of {S A} (r : list action * (result A * S)) : result A :=
  fst (snd r).
Definition state_of {S A} (r : list action * (result A * S)) : S :=
  snd (snd r).

(** ** The program *)

Section Program.

Context {W raw : Type}.
Variable env : Env W raw.

Abbreviation Run := (M (locals W)).

(** A call that reads or changes the world and returns a value. *)
Definition call {A} (f : W -> A * W) (act : A -> list action) : Run A :=
  fun s =>
    let '(a, w) := f (world s) in
    (act a, (Ok a, mkLocals w (guid s) (first_doc_in s))).

(** A call made for its effect only. *)
Definition exec (f : W -> W) (a : action) : Run unit :=
  fun s => ([a], (Ok tt, mkLocals (f (world s)) (guid s) (first_doc_in s))).

(** A call that may raise; the exception is handed to the caller's [try]. *)
Definition attempt {A} (f : W -> result A * W) (a : action)
  : Run (result A) :=
  call f (fun _ => [a]).

Definition reraise {A} (r : result A) : Run A :=
  match r with
  | Ok a => ret a
  | Raise e => raise e
  end.

Definition set_guid (g : string) : Run unit :=
  fun s => ([], (Ok tt, mkLocals (world s) (Some g) (first_doc_in s))).

Definition set_first_doc_in (d : option first_doc) : Run unit :=
  fun s => ([], (Ok tt, mkLocals (world s) (guid s) (Some d))).

(** [logger.error(f"{e} : {datetime.now()}")]. *)
Definition log_error (e : exn) : Run unit := emit (ALog e).

Definition time_sleep (n : nat) : Run unit := exec (sleep env n) (ASleep n).

(** [guid = firestore_write("cases", c)]. *)
Definition write_case (c : case) : Run string :=
  g <- call (firestore_write env "cases" c) (fun g => [AWrite "cases" c g]) ;;
  set_guid g ;;
  ret g.

(** [first_doc_in = get_firestore_first_in(cn, ut)]. *)
Definition first_in (cn ut : string) : Run (option first_doc) :=
  d <- call (get_firestore_first_in env cn ut) (fun d => [AFirstIn cn ut d]) ;;
  set_first_doc_in d ;;
  ret d.

Definition notify (subj : subject) (k : event_kind) (p : payload)
  : Run unit :=
  exec (notify_slack env subj k p) (ANotify subj k p).

(** The test [guid == first_doc_in["guid"]], on whatever the two variables
    hold at that point: reading an unbound variable raises
    [UnboundLocalError], subscripting [None] raises [TypeError]. *)
Definition guid_is_first : Run bool :=
  fun s =>
    match guid s with
    | None => raise UnboundLocalError s
    | Some g =>
        match first_doc_in s with
        | None => raise UnboundLocalError s
        | Some None => raise TypeError s
        | Some (Some d) =>
            ret (if string_dec g (doc_guid d) then true else false) s
        end
    end.

Definition when (b : bool) (m : Run unit) : Run unit :=
  if b then m else ret tt.

(** *** [tracking_check] and [auto_cc] *)

(** The loop of [tracking_check] over the documents of one
    sub-collection: the first document whose ["asset_id"] equals [asset]
    decides. [asset] is [None] when [auto_cc] found no organization. *)
Fixpoint tracking_scan (asset : option string) (case_num : string)
  (items : list asset_item) : Run (list string) :=
  match items with
  | [] => ret []
  | item :: rest =>
      match asset with
      | Some a =>
          if string_dec (asset_id item) a then
            call (support_subscribe_email env (channel_id item) case_num
                    (cc_list item) (user_id item))
                 (fun new_emails =>
                    [ASubscribe (channel_id item) case_num (cc_list item)
                       (user_id item) new_emails])
          else tracking_scan asset case_num rest
      | None => tracking_scan asset case_num rest
      end
  end.

Definition tracking_check (channel asset_type : string)
  (asset : option string) (case_num : string) : Run (list string) :=
  items <- call (asset_collection env channel asset_type) (fun _ => []) ;;
  tracking_scan asset case_num items.

(** The folder loop of [auto_cc]:
    [folder_new_emails.extend(tracking_check(...)[0])]. Indexing an empty
    result raises [IndexError]; [extend] with a string appends its
    characters. *)
Fixpoint folder_loop (channel case_num : string) (folders : list string)
  (folder_new_emails : list string) : Run (list string) :=
  match folders with
  | [] => ret folder_new_emails
  | folder :: rest =>
      r <- tracking_check channel "folders" (Some folder) case_num ;;
      match r with
      | [] => raise IndexError
      | first :: _ =>
          folder_loop channel case_num rest (folder_new_emails ++ chars first)
      end
  end.

Definition response_of (combined_new_emails : list string) : string :=
  ("The following emails have been added automatically through asset subscription: "
   ++ join combined_new_emails)%string.

(** The body of [for channel in tracked_assets]. *)
Definition channel_step (case_num : string) (org_id : option string)
  (folders : list string) (project_id : string) (channel : string)
  : Run unit :=
  org_new_emails <- tracking_check channel "organizations" org_id case_num ;;
  folder_new_emails <- folder_loop channel case_num folders [] ;;
  project_new_emails <-
    tracking_check channel "projects" (Some project_id) case_num ;;
  let combined_new_emails :=
    [join org_new_emails; join folder_new_emails; join project_new_emails] in
  match combined_new_emails with
  | [] => ret tt
  | _ =>
      let response := response_of combined_new_emails in
      exec (support_add_comment env channel case_num response ""
              "Auto Asset Subscription" false)
           (AAddComment channel case_num response ""
              "Auto Asset Subscription" false)
  end.

Fixpoint channel_loop (case_num : string) (org_id : option string)
  (folders : list string) (project_id : string) (channels : list string)
  : Run unit :=
  match channels with
  | [] => ret tt
  | channel :: rest =>
      channel_step case_num org_id folders project_id channel ;;
      channel_loop case_num org_id folders project_id rest
  end.

(** [x.split("/")[1]]. *)
Definition second_segment (x : string) : Run string :=
  match nth_error (split_slash x) 1 with
  | Some y => ret y
  | None => raise IndexError
  end.

(** What [auto_cc] learns about the case's place in the resource
    hierarchy. *)
Record hierarchy := mkHierarchy {
  h_org_id : option string;
  h_folders : list string;
  h_project_id : string
}.

(** The first half of [auto_cc], up to the end of the [with] block.
    [None] is the early [return] of the [except BrokenPipeError] handler. *)
Definition resolve_hierarchy (case_num : string) : Run (option hierarchy) :=
  r <- attempt (get_parent env case_num) (AGetParent case_num) ;;
  case_parent <- reraise r ;;
  match re_search "projects/" not_slash case_parent with
  | None => raise AttributeError
  | Some project_id =>
      r <- attempt (projects_get env project_id) (AProjectGet project_id) ;;
      match r with
      | Raise e =>
          if is_BrokenPipeError e then log_error e ;; ret None
          else raise e
      | Ok case_project =>
          match project_parent case_project with
          | None => raise KeyError
          | Some parent =>
              project_id' <- second_segment project_id ;;
              org_id <-
                match re_search "organizations/" is_digit parent with
                | Some m => o <- second_segment m ;; ret (Some o)
                | None => ret None
                end ;;
              let folders := re_findall "folders/" not_slash parent in
              ret (Some (mkHierarchy org_id folders project_id'))
          end
      end
  end.

Definition auto_cc (c : case) : Run unit :=
  channels <- call (tracked_assets env) (fun _ => []) ;;
  let case_num := case_number c in
  h <- resolve_hierarchy case_num ;;
  match h with
  | None => ret tt
  | Some h =>
      channel_loop case_num (h_org_id h) (h_folders h) (h_project_id h)
        channels
  end.

(** *** [case_updates] *)

(** The parsing loop (lines 88-97): [Some temp_cases] when every case was
    parsed, [None] when [loop_skip] was set. An exception of [SupportCase]
    that is not a [NameError] is not caught. *)
Fixpoint parse_loop (resp : list raw) (temp_cases : list case)
  : Run (option (list case)) :=
  match resp with
  | [] => ret (Some temp_cases)
  | c :: rest =>
      r <- call (SupportCase env c) (fun _ => []) ;;
      match r with
      | Raise e =>
          if is_NameError e then log_error e ;; ret None
          else raise e
      | Ok temp_case => parse_loop rest (temp_cases ++ [temp_case])
      end
  end.

(** The search of [fs_case]'s number among the fetched cases
    (lines 109-112). *)
Definition in_live (temp_cases : list case) (fs_case : case) : bool :=
  existsb
    (fun t_case =>
       if string_dec (case_number t_case) (case_number fs_case)
       then true else false)
    temp_cases.

Definition delete_entry (temp_cases : list case) (fs_case : case) : bool :=
  if string_dec (update_time fs_case) SENTINEL then false
  else negb (in_live temp_cases fs_case).

(** The body of the closure loop (lines 105-121) for one snapshot. It
    returns the snapshot as the loop leaves it in [cases] (the assignment
    of line 114 changes the dictionary in place) and what it appended to
    [closed_cases]. *)
Definition close_step (temp_cases : list case) (fs_case : case)
  : Run (case * list string) :=
  if delete_entry temp_cases fs_case then
    let fs_case' := set_update_time fs_case SENTINEL in
    write_case fs_case' ;;
    d <- first_in (case_number fs_case') (update_time fs_case') ;;
    match d with
    | Some _ =>
        b <- guid_is_first ;;
        if b then
          notify (ByNumber (case_number fs_case')) Closed (PStr "") ;;
          ret (fs_case', [case_number fs_case'])
        else ret (fs_case', [])
    | None => ret (fs_case', [])
    end
  else ret (fs_case, []).

Fixpoint closure_loop (temp_cases cases : list case)
  : Run (list case * list string) :=
  match cases with
  | [] => ret ([], [])
  | fs_case :: rest =>
      r1 <- close_step temp_cases fs_case ;;
      r2 <- closure_loop temp_cases rest ;;
      ret (fst r1 :: fst r2, snd r1 ++ snd r2)
  end.

(** Lines 130-133: a fetched case whose update time differs from the
    snapshot's is written, and the first writer of that update is looked
    up; otherwise [guid] and [first_doc_in] keep what they held. *)
Definition refresh_first_writer (t_case fs_case : case) : Run unit :=
  if string_dec (update_time t_case) (update_time fs_case) then ret tt
  else
    write_case t_case ;;
    first_in (case_number t_case) (update_time t_case) ;;
    ret tt.

(** Lines 134-138. *)
Definition comment_check (t_case fs_case : case) : Run unit :=
  if comments_eq_dec (comment_list fs_case) (comment_list t_case) then ret tt
  else
    match comment_list t_case with
    | [] => raise IndexError
    | newest :: _ =>
        if contains "googleSupport" (creator newest) then
          b <- guid_is_first ;;
          when b (notify (ByNumber (case_number t_case)) Comment
                    (PStr (body newest)))
        else ret tt
    end.

(** Lines 139-142. *)
Definition priority_check (t_case fs_case : case) : Run unit :=
  if string_dec (priority fs_case) (priority t_case) then ret tt
  else
    b <- guid_is_first ;;
    when b (notify (ByNumber (case_number t_case)) Priority
              (PStr (priority t_case))).

(** Lines 143-150; the "escalated" call passes the whole case. *)
Definition escalation_check (t_case fs_case : case) : Run unit :=
  if Bool.bool_dec (escalated fs_case) (escalated t_case) then ret tt
  else if escalated t_case then
    b <- guid_is_first ;;
    when b (notify (ByCase t_case) Escalated (PBool (escalated t_case)))
  else
    b <- guid_is_first ;;
    when b (notify (ByNumber (case_number t_case)) DeEscalated
              (PBool (escalated t_case))).

(** Lines 130-150: what the update loop does with a fetched case and a
    snapshot of the same number. *)
Definition update_pair (t_case fs_case : case) : Run unit :=
  refresh_first_writer t_case fs_case ;;
  comment_check t_case fs_case ;;
  priority_check t_case fs_case ;;
  escalation_check t_case fs_case.

(** The inner loop (lines 127-150); it returns [is_new]. *)
Fixpoint match_loop (t_case : case) (cases : list case) (is_new : bool)
  : Run bool :=
  match cases with
  | [] => ret is_new
  | fs_case :: rest =>
      if string_dec (case_number t_case) (case_number fs_case) then
        update_pair t_case fs_case ;;
        match_loop t_case rest false
      else match_loop t_case rest is_new
  end.

(** Lines 126-154 for one fetched case. The write of a new case does not
    assign [guid]. *)
Definition update_case (cases : list case) (t_case : case) : Run unit :=
  is_new <- match_loop t_case cases true ;;
  if is_new then
    call (firestore_write env "cases" t_case)
         (fun g => [AWrite "cases" t_case g]) ;;
    auto_cc t_case
  else ret tt.

Fixpoint update_loop (temp_cases cases : list case) : Run unit :=
  match temp_cases with
  | [] => ret tt
  | t_case :: rest =>
      update_case cases t_case ;;
      update_loop rest cases
  end.

Fixpoint delete_loop (closed_cases : list string) : Run unit :=
  match closed_cases with
  | [] => ret tt
  | c :: rest =>
      exec (firestore_delete_cases env c) (ADelete c) ;;
      delete_loop rest
  end.

(** How an iteration of [while True] ends. *)
Inductive flow := Continue | Break.

(** One iteration of the [while True] loop (lines 73-163). *)
Definition cycle (is_test : bool) : Run flow :=
  cases <- call (get_firestore_cases env) (fun _ => [AGetCases]) ;;
  r <- attempt (search_execute env) ASearch ;;
  match r with
  | Raise e =>
      if is_BrokenPipeError e then
        log_error e ;; time_sleep 5 ;; ret Continue
      else raise e
  | Ok resp =>
      p <- parse_loop resp [] ;;
      match p with
      | None => time_sleep 5 ;; ret Continue
      | Some temp_cases =>
          r <- closure_loop temp_cases cases ;;
          update_loop temp_cases (fst r) ;;
          time_sleep 10 ;;
          delete_loop (snd r) ;;
          ret (if is_test then Break else Continue)
      end
  end.

(** The [while True] loop, cut after [fuel] iterations: [true] when the
    loop was left by [break], [false] when it is still running. *)
Fixpoint case_updates (fuel : nat) (is_test : bool) : Run bool :=
  match fuel with
  | O => ret false
  | S fuel' =>
      f <- cycle is_test ;;
      match f with
      | Break => ret true
      | Continue => case_updates fuel' is_test
      end
  end.

End Program.

(** ** A simulated world *)

(** The collaborators are not part of [case_updates.py]; the concrete runs
    below use this small world. *)
Module Sim.

(** Modelled from the spec: the snapshot store adapter ([listAll],
    [write], [firstWriter], [delete]) and the case source, whose code is in
    other modules. The store holds one snapshot per case number, gives a
    fresh guid to every write, and remembers the guid of the first write
    for each (case number, update time). The Support API answers every
    search with [live]; a case record that [SupportCase] cannot build is
    [Raise e]. The hierarchy side is given as tables. *)
Record world := mkWorld {
  snapshots : list case;
  first_writers : list (string * string * string);
  next_guid : nat;
  live : result (list (result case));
  parents : list (string * string);
  projects : list (string * result project);
  channels : list string;
  assets : list (string * string * asset_item)
}.

Definition guid_of (n : nat) : string :=
  ("guid-" ++ NilZero.string_of_uint (Nat.to_uint n))%string.

Fixpoint put_snapshot (c : case) (l : list case) : list case :=
  match l with
  | [] => [c]
  | x :: rest =>
      if string_dec (case_number x) (case_number c) then c :: rest
      else x :: put_snapshot c rest
  end.

Fixpoint first_writer (cn ut : string) (l : list (string * string * string))
  : option string :=
  match l with
  | [] => None
  | (cn', ut', g) :: rest =>
      if string_dec cn' cn then
        if string_dec ut' ut then Some g else first_writer cn ut rest
      else first_writer cn ut rest
  end.

Definition write (c : case) (w : world) : string * world :=
  let g := guid_of (next_guid w) in
  let fw :=
    match first_writer (case_number c) (update_time c) (first_writers w) with
    | Some _ => first_writers w
    | None => first_writers w ++ [(case_number c, update_time c, g)]
    end in
  (g, mkWorld (put_snapshot c (snapshots w)) fw (S (next_guid w)) (live w)
        (parents w) (projects w) (channels w) (assets w)).

Definition delete (cn : string) (w : world) : world :=
  mkWorld
    (filter (fun x => if string_dec (case_number x) cn then false else true)
       (snapshots w))
    (first_writers w) (next_guid w) (live w) (parents w) (projects w)
    (channels w) (assets w).

Fixpoint lookup {A} (k : string) (l : list (string * A)) : option A :=
  match l with
  | [] => None
  | (k', v) :: rest => if string_dec k' k then Some v else lookup k rest
  end.

Definition items_of (channel asset_type : string) (w : world)
  : list asset_item :=
  map snd
    (filter
       (fun e =>
          match e with
          | (ch, ty, _) =>
              (if string_dec ch channel then true else false)
              && (if string_dec ty asset_type then true else false)
          end)
       (assets w)).

Definition env : Env world (result case) :=
  mkEnv world (result case)
    (fun w => (snapshots w, w))
    (fun w => (live w, w))
    (fun r w => (r, w))
    (fun _ c w => write c w)
    (fun cn ut w =>
       (option_map mkFirstDoc (first_writer cn ut (first_writers w)), w))
    delete
    (fun _ _ _ w => w)
    (fun _ w => w)
    (fun w => (channels w, w))
    (fun cn w =>
       (match lookup cn (parents w) with
        | Some p => Ok p
        | None => Raise (OtherError "HttpError")
        end, w))
    (fun name w =>
       (match lookup name (projects w) with
        | Some r => r
        | None => Raise (OtherError "HttpError")
        end, w))
    (fun ch ty w => (items_of ch ty w, w))
    (fun _ _ cc _ w => (cc, w))
    (fun _ _ _ _ _ _ w => w).

(** A world with the given snapshots and fetched cases and nothing else. *)
Definition store (snaps : list case) (fetched : list (result case)) : world :=
  mkWorld snaps [] 0 (Ok fetched) [] [] [] [].

(** The same, where another instance already holds the first-writer
    record of [(cn, ut)]. *)
Definition store_behind (snaps : list case) (fetched : list (result case))
  (cn ut : string) : world :=
  mkWorld snaps [(cn, ut, "guid-of-another-instance")] 0 (Ok fetched)
    [] [] [] [].

(** The local variables at the start of [case_updates]. *)
Definition start (w : world) : locals world := mkLocals w None None.

End Sim.

(** ** Concrete cases and worlds *)

Module Examples.

Definition caseA : case := mkCase "A" "T0" [] "P2" false.

(** Case A after an update: a later update time. *)
Definition caseA_later : case := mkCase "A" "T1" [] "P2" false.

(** Case A after an update by support staff: a new comment, a new priority
    and an escalation. *)
Definition support_note : comment :=
  mkComment "{displayName: Ann, googleSupport: true}" "We are on it."
    "T1".

Definition caseA_busy : case := mkCase "A" "T1" [support_note] "P1" true.

(** Case A after the customer wrote a comment. *)
Definition customer_note : comment :=
  mkComment "{displayName: Bob, email: bob@example.com}" "Any news?" "T1".

Definition caseA_asked : case := mkCase "A" "T1" [customer_note] "P2" false.

Definition caseB : case := mkCase "B" "T0" [] "P2" false.

(** Case B as fetched with the update time of its snapshot and another
    priority. *)
Definition caseB_same_time : case := mkCase "B" "T0" [] "P1" false.

(** Case A with the closure sentinel as update time. *)
Definition caseA_marked : case := set_update_time caseA SENTINEL.

(** Snapshots of A and B; A got a new update time, B is fetched with its
    old update time and a changed priority. *)
Definition glitch_world : Sim.world :=
  Sim.store [caseA; caseB] [Ok caseA_later; Ok caseB_same_time].

(** Snapshots of A and B; only B is still open. *)
Definition closing_world : Sim.world := Sim.store [caseA; caseB] [Ok caseB].

(** The same, where another instance has already marked A. *)
Definition closing_world_behind : Sim.world :=
  Sim.store_behind [caseA; caseB] [Ok caseB] "A" SENTINEL.

(** Snapshots of A (marked) and B; nothing is open any more. *)
Definition marked_world : Sim.world := Sim.store [caseA_marked; caseB] [].

(** The second fetched case cannot be built. *)
Definition malformed_world : Sim.world :=
  Sim.store [caseA; caseB] [Ok caseB; Raise NameError; Ok caseA].

(** A new case A of project p1, which lies under organization 123; one
    channel tracks assets, none of them on A's path. *)
Definition new_case_world : Sim.world :=
  Sim.mkWorld [] [] 0 (Ok [Ok caseA]) [("A", "projects/p1")]
    [("projects/p1", Ok (mkProject (Some "organizations/123")))]
    ["CH1"]
    [("CH1", "projects", mkItem "p2" "CH1" ["dan@example.com"] "U1")].

(** A new case A that belongs to an organization, not to a project. *)
Definition org_case_world : Sim.world :=
  Sim.mkWorld [] [] 0 (Ok [Ok caseA]) [("A", "organizations/77")] []
    ["CH1"] [].

(** A new case A of project p9, which the Resource Manager API refuses to
    show. *)
Definition hidden_project_world : Sim.world :=
  Sim.mkWorld [] [] 0 (Ok [Ok caseA]) [("A", "projects/p9")] [] ["CH1"] [].

(** A new case A of project p1; the project lookup breaks. *)
Definition broken_pipe_world : Sim.world :=
  Sim.mkWorld [] [] 0 (Ok [Ok caseA]) [("A", "projects/p1")]
    [("projects/p1", Raise BrokenPipeError)] ["CH1"] [].

(** The Support API cannot be reached. *)
Definition offline_world : Sim.world :=
  Sim.mkWorld [caseA; caseB] [] 0 (Raise BrokenPipeError) [] [] [] [].

(** The second fetched case lacks a key. *)
Definition missing_key_world : Sim.world :=
  Sim.store [caseA; caseB] [Ok caseB; Raise KeyError; Ok caseA].

(** A new case A of project p1, which has no parent. *)
Definition orphan_project_world : Sim.world :=
  Sim.mkWorld [] [] 0 (Ok [Ok caseA]) [("A", "projects/p1")]
    [("projects/p1", Ok (mkProject None))] ["CH1"] [].

(** Channel CH1 tracks folder 9 and, twice, folder 55. *)
Definition folder9 : asset_item :=
  mkItem "folders/9" "CH1" ["zoe@example.com"] "U1".

Definition folder55 : asset_item :=
  mkItem "folders/55" "CH1" ["ann@example.com"; "bob@example.com"] "U1".

Definition folder55_again : asset_item :=
  mkItem "folders/55" "CH1" ["cy@example.com"] "U2".

Definition folder_world : Sim.world :=
  Sim.mkWorld [] [] 0 (Ok [Ok caseA]) [("A", "projects/p1")]
    [("projects/p1", Ok (mkProject (Some "folders/55")))] ["CH1"]
    [("CH1", "folders", folder9); ("CH1", "folders", folder55);
     ("CH1", "folders", folder55_again)].

(** A project under a folder only, and a channel that tracks two
    organizations. *)
Definition org123 : asset_item :=
  mkItem "123" "CH1" ["ops@example.com"] "U1".

Definition org456 : asset_item :=
  mkItem "456" "CH1" ["sec@example.com"] "U2".

Definition folder_only_world : Sim.world :=
  Sim.mkWorld [] [] 0 (Ok [Ok caseA]) [("A", "projects/p1")]
    [("projects/p1", Ok (mkProject (Some "folders/55")))] ["CH1"]
    [("CH1", "organizations", org123); ("CH1", "organizations", org456)].

(** Case A has left the fetched set, and a new case B belongs to an
    organization. *)
Definition closing_then_failing_world : Sim.world :=
  Sim.mkWorld [caseA] [] 0 (Ok [Ok caseB]) [("B", "organizations/77")] []
    ["CH1"] [].

(** The collaborators of [Sim.env], with a store whose first-writer lookup
    does not find the record yet. *)
Definition lagging_env : Env Sim.world (result case) :=
  mkEnv Sim.world (result case)
    (get_firestore_cases Sim.env) (search_execute Sim.env)
    (SupportCase Sim.env) (firestore_write Sim.env)
    (fun _ _ w => (None, w))
    (firestore_delete_cases Sim.env) (notify_slack Sim.env)
    (sleep Sim.env) (tracked_assets Sim.env) (get_parent Sim.env)
    (projects_get Sim.env) (asset_collection Sim.env)
    (support_subscribe_email Sim.env) (support_add_comment Sim.env).

(** Case A after an update that raised its priority. *)
Definition caseA_urgent : case := mkCase "A" "T1" [] "P1" false.

(** The local variables after a write that won the first-writer test. *)
Definition after_winning (w : Sim.world) : locals Sim.world :=
  mkLocals w (Some "guid-0") (Some (Some (mkFirstDoc "guid-0"))).

End Examples.

(** ** Notions about logs and runs *)

(** [emits P m]: every call [m] logs, from any state and whatever its
    outcome, satisfies [P]. *)
Definition emits {S A} (P : action -> Prop) (m : M S A) : Prop :=
  forall s, Forall P (log_of (m s)).

(** [emits_in I P m]: from a state that satisfies [I], [m] logs only calls
    that satisfy [P] and ends in a state that satisfies [I]. *)
Definition emits_in {S A} (I : S -> Prop) (P : action -> Prop) (m : M S A)
  : Prop :=
  forall s, I s -> Forall P (log_of (m s)) /\ I (state_of (m s)).

(** The two variables hold the guid of a write and a first-writer
    record. *)
Definition holds {W : Type} (g : string) (d : option first_doc)
  (s : locals W) : Prop :=
  guid s = Some g /\ first_doc_in s = Some d.

(** [g] is the guid of the first-writer record [d]. *)
Definition is_first_writer (g : string) (d : option first_doc) : Prop :=
  exists doc, d = Some doc /\ g = doc_guid doc.

Definition gated_notification (g : string) (d : option first_doc)
  (a : action) : Prop :=
  (exists subj k p, a = ANotify subj k p) /\ is_first_writer g d.

Section RunNotions.

Context {W raw : Type} (env : Env W raw).

(** The guid this run's write of [t_case] returns, and the first-writer
    record the lookup that follows it returns. *)
Definition written_guid (t_case : case) (s : locals W) : string :=
  fst (firestore_write env "cases" t_case (world s)).

Definition first_writer_record (t_case : case) (s : locals W)
  : option first_doc :=
  fst (get_firestore_first_in env (case_number t_case) (update_time t_case)
         (snd (firestore_write env "cases" t_case (world s)))).

(** [SupportCase] builds every case of [resp], one after the other, from
    world [w]: the cases built and the world it leaves. *)
Fixpoint all_parsed (resp : list raw) (w : W) : option (list case * W) :=
  match resp with
  | [] => Some ([], w)
  | c :: rest =>
      match SupportCase env c w with
      | (Ok temp_case, w') =>
          match all_parsed rest w' with
          | Some (l, w'') => Some (temp_case :: l, w'')
          | None => None
          end
      | (Raise _, _) => None
      end
  end.

End RunNotions.

(** The calls of the auto-subscription side. *)
Definition subscription_action (a : action) : Prop :=
  match a with
  | AGetParent _ | AProjectGet _ | ALog _ | ASubscribe _ _ _ _ _
  | AAddComment _ _ _ _ _ _ => True
  | _ => False
  end.

(** The calls of the reconciliation steps (lines 104-154): store writes,
    first-writer lookups, notifications, and what [auto_cc] does. *)
Definition reconcile_action (a : action) : Prop :=
  match a with
  | AWrite _ _ _ | AFirstIn _ _ _ | ANotify _ _ _ => True
  | _ => subscription_action a
  end.

(** Reading the stored and the fetched cases. *)
Definition fetch_action (a : action) : Prop :=
  match a with
  | AGetCases | ASearch | ALog _ => True
  | _ => False
  end.

(** The calls of update detection and new-case handling (lines 125-154):
    as [reconcile_action], without closed notifications. *)
Definition update_action (a : action) : Prop :=
  match a with
  | ANotify _ Closed _ => False
  | _ => reconcile_action a
  end.

(** The case numbers a log deletes, and those it announces as closed, in
    the order of the calls. *)
Fixpoint deletions (l : list action) : list string :=
  match l with
  | [] => []
  | ADelete c :: rest => c :: deletions rest
  | _ :: rest => deletions rest
  end.

Fixpoint closed_events (l : list action) : list string :=
  match l with
  | [] => []
  | ANotify (ByNumber c) Closed _ :: rest => c :: closed_events rest
  | _ :: rest => closed_events rest
  end.

(** "The snapshot is not deleted in the cycle that marks it": a log that
    writes a snapshot with the sentinel update time contains no deletion of
    that case. *)
Definition closure_is_delayed (l : list action) : Prop :=
  forall fs_case g,
    In (AWrite "cases" (set_update_time fs_case SENTINEL) g) l ->
    ~ In (ADelete (case_number fs_case)) l.

(** "Every snapshot marked in a cycle is deleted after the sleep": a log
    that writes a snapshot with the sentinel update time also deletes that
    case. *)
Definition marked_are_deleted (l : list action) : Prop :=
  forall fs_case g,
    In (AWrite "cases" (set_update_time fs_case SENTINEL) g) l ->
    In (ADelete (case_number fs_case)) l.

(** A comment notification about [t_case], compared with the snapshot
    [fs_case]: the comment lists differ, the newest fetched comment is by
    support staff, and its body is the payload. *)
Definition comment_event_of (t_case fs_case : case) (subj : subject)
  (p : payload) : Prop :=
  case_number t_case = case_number fs_case
  /\ comment_list fs_case <> comment_list t_case
  /\ exists newest older,
       comment_list t_case = newest :: older
       /\ contains "googleSupport" (creator newest) = true
       /\ subj = ByNumber (case_number t_case)
       /\ p = PStr (body newest).

(** Every comment notification in a log comes from such a pair. *)
Definition comment_event_justified (temp_cases cases : list case)
  (a : action) : Prop :=
  forall subj p,
    a = ANotify subj Comment p ->
    exists t_case fs_case,
      In t_case temp_cases /\ In fs_case cases
      /\ comment_event_of t_case fs_case subj p.

(** What the closure loop does, snapshot by snapshot: it skips a snapshot
    ([cr_skip]), or marks it and wins the first-writer test ([cr_won]: a
    closed notification, and the case number is queued), or marks it and
    does not win ([cr_lost]: nothing more). The relation links the
    snapshots, the log, the snapshots as the loop leaves them and
    [closed_cases]. *)
Inductive closure_run (temp_cases : list case)
  : list case -> list action -> list case -> list string -> Prop :=
| cr_nil : closure_run temp_cases [] [] [] []
| cr_skip fs_case rest l rest' closed :
    delete_entry temp_cases fs_case = false ->
    closure_run temp_cases rest l rest' closed ->
    closure_run temp_cases (fs_case :: rest) l (fs_case :: rest') closed
| cr_won fs_case g doc rest l rest' closed :
    delete_entry temp_cases fs_case = true ->
    g = doc_guid doc ->
    closure_run temp_cases rest l rest' closed ->
    closure_run temp_cases (fs_case :: rest)
      (AWrite "cases" (set_update_time fs_case SENTINEL) g
       :: AFirstIn (case_number fs_case) SENTINEL (Some doc)
       :: ANotify (ByNumber (case_number fs_case)) Closed (PStr "")
       :: l)
      (set_update_time fs_case SENTINEL :: rest')
      (case_number fs_case :: closed)
| cr_lost fs_case g d rest l rest' closed :
    delete_entry temp_cases fs_case = true ->
    (forall doc, d = Some doc -> g <> doc_guid doc) ->
    closure_run temp_cases rest l rest' closed ->
    closure_run temp_cases (fs_case :: rest)
      (AWrite "cases" (set_update_time fs_case SENTINEL) g
       :: AFirstIn (case_number fs_case) SENTINEL d
       :: l)
      (set_update_time fs_case SENTINEL :: rest')
      closed.

(** The closure step leaves a call about case [c] out of the log. *)
Definition untouched (c : string) (a : action) : Prop :=
  match a with
  | AWrite _ x _ => case_number x <> c
  | AFirstIn cn _ _ => cn <> c
  | ANotify subj _ _ => subj <> ByNumber c
  | _ => False
  end.

(** An iteration is deferred (a short sleep after a failed fetch or parse),
    or it raises before its long sleep, or it completes: closure detection,
    update detection, the long sleep, then the deletions of
    [closed_cases]. *)
Inductive cycle_shape (is_test : bool) (l : list action) (o : result flow)
  : Prop :=
| deferred head :
    l = head ++ [ASleep 5] -> Forall fetch_action head -> o = Ok Continue ->
    cycle_shape is_test l o
| crashed head body e :
    l = head ++ body -> Forall fetch_action head ->
    Forall reconcile_action body -> o = Raise e ->
    cycle_shape is_test l o
| completed head temp_cases cases closing cases' closed updating :
    l = head ++ closing ++ updating ++ ASleep 10 :: map ADelete closed ->
    Forall fetch_action head ->
    closure_run temp_cases cases closing cases' closed ->
    Forall update_action updating ->
    o = Ok (if is_test then Break else Continue) ->
    cycle_shape is_test l o.

(** ** Further notions about logs and runs *)

(** Whether every character of [s] satisfies [f]. *)
Fixpoint string_forall (f : ascii -> bool) (s : string) : bool :=
  match s with
  | EmptyString => true
  | String c s' => f c && string_forall f s'
  end.

(** A snapshot as the closure loop leaves it in [cases]. *)
Definition mark_absent (temp_cases : list case) (fs_case : case) : case :=
  if delete_entry temp_cases fs_case then set_update_time fs_case SENTINEL
  else fs_case.

(** The records a log writes, the seconds it sleeps and the channels whose
    case it comments on, in the order of the calls. *)
Fixpoint writes (l : list action) : list case :=
  match l with
  | [] => []
  | AWrite _ c _ :: rest => c :: writes rest
  | _ :: rest => writes rest
  end.

Fixpoint sleeps (l : list action) : list nat :=
  match l with
  | [] => []
  | ASleep n :: rest => n :: sleeps rest
  | _ :: rest => sleeps rest
  end.

Fixpoint commented_channels (l : list action) : list string :=
  match l with
  | [] => []
  | AAddComment channel _ _ _ _ _ :: rest => channel :: commented_channels rest
  | _ :: rest => commented_channels rest
  end.

Definition is_notification (a : action) : Prop :=
  exists subj k p, a = ANotify subj k p.

(** A subscription, or nothing the comment API sees. *)
Definition subscribe_action (a : action) : Prop :=
  match a with
  | ASubscribe _ _ _ _ _ => True
  | _ => False
  end.

(** What a notification of update detection looks like, by kind. *)
Definition update_event_of (t_case : case) (subj : subject) (k : event_kind)
  (p : payload) : Prop :=
  match k with
  | Closed => False
  | Comment =>
      subj = ByNumber (case_number t_case)
      /\ exists newest older,
           comment_list t_case = newest :: older /\ p = PStr (body newest)
  | Priority =>
      subj = ByNumber (case_number t_case) /\ p = PStr (priority t_case)
  | Escalated =>
      subj = ByCase t_case /\ p = PBool true /\ escalated t_case = true
  | DeEscalated =>
      subj = ByNumber (case_number t_case) /\ p = PBool false
      /\ escalated t_case = false
  end.

Definition update_event (temp_cases : list case) (a : action) : Prop :=
  forall subj k p,
    a = ANotify subj k p ->
    exists t_case, In t_case temp_cases /\ update_event_of t_case subj k p.

(** A write of update detection: of a fetched case, into "cases", and
    either no snapshot has its number or one has another update time. *)
Definition update_write (temp_cases cases : list case) (a : action) : Prop :=
  forall collection c g,
    a = AWrite collection c g ->
    collection = "cases" /\ In c temp_cases
    /\ ((forall fs_case,
            In fs_case cases -> case_number c <> case_number fs_case)
        \/ exists fs_case,
             In fs_case cases /\ case_number c = case_number fs_case
             /\ update_time c <> update_time fs_case).

(** The writes of the inner loop are of [t_case], for a snapshot of its
    number with another update time. *)
Definition changed_write (t_case : case) (cases : list case) (a : action)
  : Prop :=
  forall collection c g,
    a = AWrite collection c g ->
    collection = "cases" /\ c = t_case
    /\ exists fs_case,
         In fs_case cases /\ case_number c = case_number fs_case
         /\ update_time c <> update_time fs_case.

(** The snapshot [fs_case] shows nothing new about [t_case]. *)
Definition same_fields (t_case fs_case : case) : Prop :=
  update_time t_case = update_time fs_case
  /\ comment_list fs_case = comment_list t_case
  /\ priority fs_case = priority t_case
  /\ escalated fs_case = escalated t_case.

(** The payloads a log sends with kind [k] about the case of number [cn],
    in the order of the calls. *)
Definition event_kind_eqb (k1 k2 : event_kind) : bool :=
  match k1, k2 with
  | Closed, Closed | Comment, Comment | Priority, Priority
  | Escalated, Escalated | DeEscalated, DeEscalated => true
  | _, _ => false
  end.

Fixpoint notified (cn : string) (k : event_kind) (l : list action)
  : list payload :=
  match l with
  | [] => []
  | ANotify (ByNumber c) k' p :: rest =>
      if (if string_dec c cn then event_kind_eqb k' k else false)
      then p :: notified cn k rest
      else notified cn k rest
  | _ :: rest => notified cn k rest
  end.

(** * Proofs *)

(** ** The string operations on examples *)

Example contains_support :
  contains "googleSupport" "{displayName: Ann, googleSupport: true}" = true.
Proof. reflexivity. Qed.

Example contains_customer : contains "googleSupport" "bob@example.com" = false.
Proof. reflexivity. Qed.

Example search_project :
  re_search "projects/" not_slash "projects/p-1/cases/42" = Some "projects/p-1".
Proof. reflexivity. Qed.

Example search_no_project :
  re_search "projects/" not_slash "organizations/77/cases/42" = None.
Proof. reflexivity. Qed.

Example findall_folders :
  re_findall "folders/" not_slash "folders/12/folders/34" =
  ["folders/12"; "folders/34"].
Proof. reflexivity. Qed.

Example split_project : split_slash "projects/p-1" = ["projects"; "p-1"].
Proof. reflexivity. Qed.

Example join_three_empty : join [join []; join []; join []] = ", , ".
Proof. reflexivity. Qed.

(** ** Running a computation step by step *)

Lemma bind_inv {S A B} (m : M S A) (f : A -> M S B) (s : S)
  (l : list action) (o : result B) (s' : S) :
  bind m f s = (l, (o, s')) ->
  (exists l1 a s1 l2,
      m s = (l1, (Ok a, s1)) /\ f a s1 = (l2, (o, s')) /\ l = l1 ++ l2)
  \/ (exists e, m s = (l, (Raise e, s')) /\ o = Raise e).
Proof.
  unfold bind. destruct (m s) as [l1 [[a | e] s1]].
  - destruct (f a s1) as [l2 [o2 s2]] eqn:Hf. intros [= <- <- <-].
    left. exists l1, a, s1, l2. auto.
  - intros [= <- <- <-]. right. exists e. auto.
Qed.

(** ** What a computation can log *)

Section Emits.

Context {S : Type} (P : action -> Prop).

Lemma emits_ret {A} (a : A) : emits P (@ret S A a).
Proof. intro s. constructor. Qed.

Lemma emits_raise {A} (e : exn) : emits P (@raise S A e).
Proof. intro s. constructor. Qed.

Lemma emits_emit (a : action) : P a -> emits P (@emit S a).
Proof. intros H s. repeat constructor. exact H. Qed.

Lemma emits_bind {A B} (m : M S A) (f : A -> M S B) :
  emits P m -> (forall a, emits P (f a)) -> emits P (bind m f).
Proof.
  intros Hm Hf s. specialize (Hm s). unfold bind, log_of in *.
  destruct (m s) as [l1 [[a | e] s1]]; simpl in *.
  - specialize (Hf a s1). unfold log_of in Hf.
    destruct (f a s1) as [l2 rs]; simpl in *.
    apply Forall_app. split; assumption.
  - exact Hm.
Qed.

End Emits.

Lemma emits_weaken {S A} (P Q : action -> Prop) (m : M S A) :
  (forall a, P a -> Q a) -> emits P m -> emits Q m.
Proof.
  intros HPQ Hm s. specialize (Hm s).
  eapply Forall_impl; [exact HPQ | exact Hm].
Qed.

Section EmitsProgram.

Context {W raw : Type} (env : Env W raw) (P : action -> Prop).

Lemma emits_call {A} (f : W -> A * W) (act : A -> list action) :
  (forall a, Forall P (act a)) -> emits P (call f act).
Proof.
  intros H s. unfold call, log_of. destruct (f (world s)) as [a w]. apply H.
Qed.

Lemma emits_exec (f : W -> W) (a : action) : P a -> emits P (exec f a).
Proof. intros H s. repeat constructor. exact H. Qed.

Lemma emits_attempt {A} (f : W -> result A * W) (a : action) :
  P a -> emits P (attempt f a).
Proof. intro H. apply emits_call. intros _. repeat constructor. exact H. Qed.

Lemma emits_reraise {A} (r : result A) : emits P (@reraise W A r).
Proof. destruct r; [apply emits_ret | apply emits_raise]. Qed.

Lemma emits_set_guid (g : string) : emits P (@set_guid W g).
Proof. intro s. constructor. Qed.

Lemma emits_set_first_doc_in (d : option first_doc) :
  emits P (@set_first_doc_in W d).
Proof. intro s. constructor. Qed.

Lemma emits_guid_is_first : emits P (@guid_is_first W).
Proof.
  intro s. unfold guid_is_first.
  destruct (guid s); [destruct (first_doc_in s) as [[d |] |] |]; constructor.
Qed.

Lemma emits_write_case (c : case) :
  (forall g, P (AWrite "cases" c g)) -> emits P (write_case env c).
Proof.
  intro H. unfold write_case.
  apply emits_bind; [apply emits_call; intro g; repeat constructor; apply H |].
  intro g. apply emits_bind; [apply emits_set_guid | intros _; apply emits_ret].
Qed.

Lemma emits_first_in (cn ut : string) :
  (forall d, P (AFirstIn cn ut d)) -> emits P (first_in env cn ut).
Proof.
  intro H. unfold first_in.
  apply emits_bind; [apply emits_call; intro d; repeat constructor; apply H |].
  intro d. apply emits_bind;
    [apply emits_set_first_doc_in | intros _; apply emits_ret].
Qed.

Lemma emits_notify (subj : subject) (k : event_kind) (p : payload) :
  P (ANotify subj k p) -> emits P (notify env subj k p).
Proof. apply emits_exec. Qed.

(** A notification behind the first-writer test. *)
Lemma emits_gated (subj : subject) (k : event_kind) (p : payload) :
  P (ANotify subj k p) ->
  emits P (b <- guid_is_first ;; when b (notify env subj k p)).
Proof.
  intro H. apply emits_bind; [apply emits_guid_is_first |].
  intros [|]; simpl; [apply emits_notify, H | apply emits_ret].
Qed.

End EmitsProgram.

(** ** Logs under a state invariant *)

Section EmitsIn.

Context {S : Type} (I : S -> Prop) (P : action -> Prop).

Lemma emits_in_ret {A} (a : A) : emits_in I P (@ret S A a).
Proof. intros s Hs. split; [constructor | exact Hs]. Qed.

Lemma emits_in_raise {A} (e : exn) : emits_in I P (@raise S A e).
Proof. intros s Hs. split; [constructor | exact Hs]. Qed.

Lemma emits_in_bind {A B} (m : M S A) (f : A -> M S B) :
  emits_in I P m -> (forall a, emits_in I P (f a)) ->
  emits_in I P (bind m f).
Proof.
  intros Hm Hf s Hs. destruct (Hm s Hs) as [Hl Hi].
  unfold bind, log_of, state_of in *.
  destruct (m s) as [l1 [[a | e] s1]]; simpl in *.
  - destruct (Hf a s1 Hi) as [Hl2 Hi2]. unfold log_of, state_of in *.
    destruct (f a s1) as [l2 rs]; simpl in *.
    split; [apply Forall_app; split; assumption | assumption].
  - split; assumption.
Qed.

End EmitsIn.

(** ** Update detection: the first-writer gate *)

Section FirstWriterGate.

Context {W raw : Type} (env : Env W raw).

Lemma gated_in_holds g d (subj : subject) (k : event_kind) (p : payload) :
  emits_in (holds g d) (gated_notification g d)
    (b <- guid_is_first ;; when b (notify env subj k p)).
Proof.
  intros s [Hg Hd].
  unfold bind, guid_is_first, holds, log_of, state_of. rewrite Hg, Hd.
  unfold gated_notification, is_first_writer.
  destruct d as [doc |]; simpl.
  - destruct (string_dec g (doc_guid doc)) as [E | N]; simpl.
    + split; [| split; assumption].
      apply Forall_cons; [| apply Forall_nil].
      split; [do 3 eexists; reflexivity | exists doc; auto].
    + split; [constructor | split; assumption].
  - split; [constructor | split; assumption].
Qed.

Lemma comment_check_in_holds g d (t_case fs_case : case) :
  emits_in (holds g d) (gated_notification g d) (comment_check env t_case fs_case).
Proof.
  unfold comment_check.
  destruct (comments_eq_dec _ _); [apply emits_in_ret |].
  destruct (comment_list t_case) as [| newest older];
    [apply emits_in_raise |].
  destruct (contains _ _); [apply gated_in_holds | apply emits_in_ret].
Qed.

Lemma priority_check_in_holds g d (t_case fs_case : case) :
  emits_in (holds g d) (gated_notification g d) (priority_check env t_case fs_case).
Proof.
  unfold priority_check.
  destruct (string_dec _ _); [apply emits_in_ret | apply gated_in_holds].
Qed.

Lemma escalation_check_in_holds g d (t_case fs_case : case) :
  emits_in (holds g d) (gated_notification g d) (escalation_check env t_case fs_case).
Proof.
  unfold escalation_check.
  destruct (Bool.bool_dec _ _); [apply emits_in_ret |].
  destruct (escalated t_case); apply gated_in_holds.
Qed.

Lemma field_checks_in_holds g d (t_case fs_case : case) :
  emits_in (holds g d) (gated_notification g d)
    (comment_check env t_case fs_case ;;
     priority_check env t_case fs_case ;;
     escalation_check env t_case fs_case).
Proof.
  apply emits_in_bind; [apply comment_check_in_holds | intros _].
  apply emits_in_bind; [apply priority_check_in_holds | intros _].
  apply escalation_check_in_holds.
Qed.

End FirstWriterGate.

Section UpdateDetection.

Context {W raw : Type} (env : Env W raw).

(** C2. In update detection, when the fetched case's update time differs
    from the snapshot's, the run writes the case, looks up the first writer
    of (case number, new update time), and after that logs notifications
    only; it logs any notification at all only if the guid returned by its
    write is the guid of the first-writer record. A run whose guid does not
    match emits nothing for that update. *)
Theorem update_notifications_need_first_writer
  (t_case fs_case : case) (s : locals W) :
  update_time t_case <> update_time fs_case ->
  exists notifications,
    log_of (update_pair env t_case fs_case s) =
      AWrite "cases" t_case (written_guid env t_case s)
      :: AFirstIn (case_number t_case) (update_time t_case)
           (first_writer_record env t_case s)
      :: notifications
    /\ Forall (fun a => exists subj k p, a = ANotify subj k p) notifications
    /\ (notifications <> [] ->
        exists doc,
          first_writer_record env t_case s = Some doc
          /\ written_guid env t_case s = doc_guid doc).
Proof.
  intro Hne.
  unfold update_pair, refresh_first_writer, written_guid, first_writer_record.
  destruct (string_dec (update_time t_case) (update_time fs_case));
    [contradiction |].
  unfold bind at 1. unfold bind at 1. unfold write_case at 1.
  unfold bind at 1. unfold call at 1.
  destruct (firestore_write env "cases" t_case (world s)) as [g w1] eqn:Ew.
  cbn [fst snd]. unfold bind at 1. unfold set_guid at 1. cbn [ret app].
  unfold bind at 1. unfold first_in at 1. unfold bind at 1.
  unfold call at 1. cbn [world].
  destruct (get_firestore_first_in env (case_number t_case)
              (update_time t_case) w1) as [d w2] eqn:Ef.
  cbn [fst snd]. unfold bind at 1. unfold set_first_doc_in at 1.
  cbn [ret app world guid first_doc_in].
  pose proof (field_checks_in_holds env g d t_case fs_case
                (mkLocals w2 (Some g) (Some d))) as H.
  destruct H as [Hl _]; [split; reflexivity |].
  unfold log_of in *.
  destruct ((comment_check env t_case fs_case ;;
             priority_check env t_case fs_case ;;
             escalation_check env t_case fs_case)
              (mkLocals w2 (Some g) (Some d))) as [l rs].
  cbn [fst app] in *. exists l. split; [reflexivity |]. split.
  - eapply Forall_impl; [| exact Hl]. intros a [Ha _]. exact Ha.
  - intro Hnil. destruct l as [| a l']; [contradiction |].
    inversion Hl as [| ? ? [_ Hfw] _]. exact Hfw.
Qed.

End UpdateDetection.

Lemma call_inv {W A} (f : W -> A * W) (act : A -> list action)
  (s : locals W) (l : list action) (o : result A) (s' : locals W) :
  call f act s = (l, (o, s')) ->
  exists a, o = Ok a /\ a = fst (f (world s)) /\ l = act a.
Proof.
  unfold call. destruct (f (world s)) as [a w]. intros [= <- <- <-].
  exists a. auto.
Qed.

(** ** What each part of the program logs *)

Ltac same_log :=
  cbn [app]; rewrite ?app_nil_r, <- ?app_assoc; cbn [app]; reflexivity.

Ltac emits_leaf :=
  first
    [ apply emits_ret | apply emits_raise | apply emits_reraise
    | apply emits_guid_is_first | apply emits_set_guid
    | apply emits_set_first_doc_in
    | apply emits_emit | apply emits_exec | apply emits_attempt
    | apply emits_notify | apply emits_gated
    | apply emits_write_case; intro | apply emits_first_in; intro
    | apply emits_call; intro; repeat apply Forall_cons; try apply Forall_nil ].

Ltac emits_branch :=
  match goal with
  | |- emits _ (bind _ _) => apply emits_bind; [| intro]
  | |- emits _ (if ?b then _ else _) => destruct b
  | |- emits _ (match ?x with _ => _ end) => destruct x
  | |- emits _ (when ?b _) => destruct b; cbn [when]
  end.

Ltac emits_auto := repeat first [emits_branch | emits_leaf]; try exact I.

Section ProgramLogs.

Context {W raw : Type} (env : Env W raw).

Lemma tracking_scan_log asset case_num items :
  emits subscription_action (tracking_scan env asset case_num items).
Proof.
  induction items as [| item rest IH]; cbn [tracking_scan];
    [apply emits_ret |].
  destruct asset as [a |]; [| exact IH].
  destruct (string_dec (asset_id item) a); [| exact IH].
  emits_auto.
Qed.

Lemma tracking_check_log channel asset_type asset case_num :
  emits subscription_action
    (tracking_check env channel asset_type asset case_num).
Proof.
  unfold tracking_check. apply emits_bind; [emits_auto |].
  intro items. apply tracking_scan_log.
Qed.

Lemma folder_loop_log channel case_num folders acc :
  emits subscription_action (folder_loop env channel case_num folders acc).
Proof.
  revert acc. induction folders as [| folder rest IH]; intro acc;
    cbn [folder_loop]; [apply emits_ret |].
  apply emits_bind; [apply tracking_check_log |].
  intros [| first others]; [apply emits_raise | apply IH].
Qed.

Lemma channel_step_log case_num org_id folders project_id channel :
  emits subscription_action
    (channel_step env case_num org_id folders project_id channel).
Proof.
  unfold channel_step.
  apply emits_bind; [apply tracking_check_log | intro].
  apply emits_bind; [apply folder_loop_log | intro].
  apply emits_bind; [apply tracking_check_log | intro].
  emits_auto.
Qed.

Lemma channel_loop_log case_num org_id folders project_id channels :
  emits subscription_action
    (channel_loop env case_num org_id folders project_id channels).
Proof.
  induction channels as [| channel rest IH]; cbn [channel_loop];
    [apply emits_ret |].
  apply emits_bind; [apply channel_step_log | intro; exact IH].
Qed.

Lemma second_segment_log (x : string) :
  emits subscription_action (@second_segment W x).
Proof. unfold second_segment. emits_auto. Qed.

Lemma resolve_hierarchy_log case_num :
  emits subscription_action (resolve_hierarchy env case_num).
Proof.
  unfold resolve_hierarchy.
  apply emits_bind; [emits_auto | intro r].
  apply emits_bind; [emits_auto | intro case_parent].
  destruct (re_search "projects/" not_slash case_parent) as [pid |];
    [| apply emits_raise].
  apply emits_bind; [emits_auto | intros [case_project | e]].
  - destruct (project_parent case_project) as [parent |];
      [| apply emits_raise].
    apply emits_bind; [apply second_segment_log | intro].
    apply emits_bind; [| intro; apply emits_ret].
    destruct (re_search "organizations/" is_digit parent);
      [| apply emits_ret].
    apply emits_bind; [apply second_segment_log | intro; apply emits_ret].
  - emits_auto.
Qed.

Lemma auto_cc_log (c : case) : emits subscription_action (auto_cc env c).
Proof.
  unfold auto_cc.
  apply emits_bind; [emits_auto | intro channels].
  apply emits_bind; [apply resolve_hierarchy_log | intros [h |]].
  - apply channel_loop_log.
  - apply emits_ret.
Qed.

End ProgramLogs.

(** ** The comment filter *)

Section CommentFilter.

Context {W raw : Type} (env : Env W raw).

Lemma subscription_not_comment_event temp_cases cases (a : action) :
  subscription_action a -> comment_event_justified temp_cases cases a.
Proof. intros H subj p ->. destruct H. Qed.

Lemma update_pair_comment_events (t_case fs_case : case) :
  case_number t_case = case_number fs_case ->
  emits (comment_event_justified [t_case] [fs_case])
    (update_pair env t_case fs_case).
Proof.
  intro Hcn. unfold update_pair.
  apply emits_bind; [| intros _; apply emits_bind; [| intros _;
    apply emits_bind; intros]].
  - unfold refresh_first_writer. emits_auto; intros ? ? [=].
  - unfold comment_check.
    destruct (comments_eq_dec _ _) as [| Hdiff]; [apply emits_ret |].
    destruct (comment_list t_case) as [| newest older] eqn:Hlist;
      [apply emits_raise |].
    destruct (contains "googleSupport" (creator newest)) eqn:Hstaff;
      [| apply emits_ret].
    apply emits_gated. intros subj p [= <- <-].
    exists t_case, fs_case.
    split; [left; reflexivity |]. split; [left; reflexivity |].
    split; [exact Hcn |]. split; [rewrite Hlist; exact Hdiff |].
    exists newest, older. auto.
  - unfold priority_check. emits_auto; intros ? ? [=].
  - unfold escalation_check. emits_auto; intros ? ? [=].
Qed.

Lemma match_loop_comment_events (t_case : case) (cases : list case)
  (is_new : bool) :
  emits (comment_event_justified [t_case] cases)
    (match_loop env t_case cases is_new).
Proof.
  revert is_new. induction cases as [| fs_case rest IH]; intro is_new;
    cbn [match_loop]; [apply emits_ret |].
  assert (Hrest : forall b,
             emits (comment_event_justified [t_case] (fs_case :: rest))
               (match_loop env t_case rest b)).
  { intro b. eapply emits_weaken; [| apply IH].
    intros a Ha subj p E. destruct (Ha subj p E) as (t & fs & Ht & Hfs & H).
    exists t, fs. simpl. auto. }
  destruct (string_dec (case_number t_case) (case_number fs_case)) as [E |];
    [| apply Hrest].
  apply emits_bind; [| intros _; apply Hrest].
  eapply emits_weaken; [| apply update_pair_comment_events; exact E].
  intros a Ha subj p Ea. destruct (Ha subj p Ea) as (t & fs & Ht & Hfs & H).
  exists t, fs. destruct Hfs as [<- | []]. simpl. auto.
Qed.

Lemma update_case_comment_events (cases : list case) (t_case : case) :
  emits (comment_event_justified [t_case] cases)
    (update_case env cases t_case).
Proof.
  unfold update_case.
  apply emits_bind; [apply match_loop_comment_events | intros [|]].
  - apply emits_bind; [emits_auto; intros ? ? [=] | intros _].
    eapply emits_weaken; [| apply auto_cc_log].
    apply subscription_not_comment_event.
  - apply emits_ret.
Qed.

(** C6. In update detection, every comment notification is about a fetched
    case whose comment list differs from the snapshot of the same number and
    whose newest (first) comment has a creator identified as support staff;
    its payload is the body of that newest comment. With a newest comment
    whose creator is not support staff, no comment notification is
    logged. *)
Theorem comment_events_are_support_comments (temp_cases cases : list case) :
  emits (comment_event_justified temp_cases cases)
    (update_loop env temp_cases cases).
Proof.
  induction temp_cases as [| t_case rest IH]; cbn [update_loop];
    [apply emits_ret |].
  apply emits_bind.
  - eapply emits_weaken; [| apply update_case_comment_events].
    intros a Ha subj p E. destruct (Ha subj p E) as (t & fs & Ht & Hfs & H).
    exists t, fs. destruct Ht as [<- | []]. simpl. auto.
  - intros _. eapply emits_weaken; [| exact IH].
    intros a Ha subj p E. destruct (Ha subj p E) as (t & fs & Ht & Hfs & H).
    exists t, fs. simpl. auto.
Qed.

End CommentFilter.

(** ** Closure detection *)

Section ClosureDetection.

Context {W raw : Type} (env : Env W raw).

(** One step of the closure loop, run. *)
Lemma close_step_run (temp_cases : list case) (fs_case : case)
  (s : locals W) :
  close_step env temp_cases fs_case s =
  if delete_entry temp_cases fs_case then
    let fs_case' := set_update_time fs_case SENTINEL in
    let gw := firestore_write env "cases" fs_case' (world s) in
    let dw :=
      get_firestore_first_in env (case_number fs_case) SENTINEL (snd gw) in
    let marked :=
      [AWrite "cases" fs_case' (fst gw);
       AFirstIn (case_number fs_case) SENTINEL (fst dw)] in
    match fst dw with
    | Some doc =>
        if string_dec (fst gw) (doc_guid doc) then
          (marked
           ++ [ANotify (ByNumber (case_number fs_case)) Closed (PStr "")],
           (Ok (fs_case', [case_number fs_case]),
            mkLocals
              (notify_slack env (ByNumber (case_number fs_case)) Closed
                 (PStr "") (snd dw))
              (Some (fst gw)) (Some (fst dw))))
        else
          (marked,
           (Ok (fs_case', []),
            mkLocals (snd dw) (Some (fst gw)) (Some (fst dw))))
    | None =>
        (marked,
         (Ok (fs_case', []),
          mkLocals (snd dw) (Some (fst gw)) (Some (fst dw))))
    end
  else ([], (Ok (fs_case, []), s)).
Proof.
  unfold close_step.
  destruct (delete_entry temp_cases fs_case); [| reflexivity].
  unfold bind, write_case, first_in, call, set_guid, set_first_doc_in,
    guid_is_first, notify, exec, ret, bind.
  cbn [case_number update_time set_update_time world guid first_doc_in].
  destruct (firestore_write env "cases" (set_update_time fs_case SENTINEL)
              (world s)) as [g w1].
  cbn [fst snd app world guid first_doc_in].
  destruct (get_firestore_first_in env (case_number fs_case) SENTINEL w1)
    as [[doc |] w2]; cbn [fst snd app world guid first_doc_in];
    [| reflexivity].
  destruct (string_dec g (doc_guid doc)); reflexivity.
Qed.

(** The closure loop never raises, and its run is a [closure_run]. *)
Lemma closure_loop_run (temp_cases cases : list case) (s : locals W) :
  exists l cases' closed s',
    closure_loop env temp_cases cases s = (l, (Ok (cases', closed), s'))
    /\ closure_run temp_cases cases l cases' closed.
Proof.
  revert s. induction cases as [| fs_case rest IH]; intro s.
  - exists [], [], [], s. split; [reflexivity | constructor].
  - cbn [closure_loop]. unfold bind at 1. rewrite close_step_run.
    destruct (delete_entry temp_cases fs_case) eqn:Hdel.
    + cbv zeta.
      set (gw := firestore_write env "cases"
                   (set_update_time fs_case SENTINEL) (world s)).
      set (dw := get_firestore_first_in env (case_number fs_case) SENTINEL
                   (snd gw)).
      destruct (fst dw) as [doc |] eqn:Hd.
      * destruct (string_dec (fst gw) (doc_guid doc)) as [Hg | Hg].
        -- match goal with
           | |- context [bind (closure_loop env temp_cases rest) _ ?s1] =>
               destruct (IH s1) as (l & rest' & closed & s' & Hrun & Hrel)
           end.
           unfold bind at 1. rewrite Hrun. cbn. rewrite ?app_nil_r.
           do 4 eexists. split; [reflexivity |].
           apply cr_won; assumption.
        -- match goal with
           | |- context [bind (closure_loop env temp_cases rest) _ ?s1] =>
               destruct (IH s1) as (l & rest' & closed & s' & Hrun & Hrel)
           end.
           unfold bind at 1. rewrite Hrun. cbn. rewrite ?app_nil_r.
           do 4 eexists. split; [reflexivity |].
           apply cr_lost; [assumption | | assumption].
           intros doc' [= <-]. exact Hg.
      * match goal with
        | |- context [bind (closure_loop env temp_cases rest) _ ?s1] =>
            destruct (IH s1) as (l & rest' & closed & s' & Hrun & Hrel)
        end.
        unfold bind at 1. rewrite Hrun. cbn. rewrite ?app_nil_r.
        do 4 eexists. split; [reflexivity |].
        apply cr_lost; [assumption | | assumption].
        intros doc' [=].
    + destruct (IH s) as (l & rest' & closed & s' & Hrun & Hrel).
      unfold bind at 1. rewrite Hrun. cbn. rewrite ?app_nil_r.
      do 4 eexists. split; [reflexivity |].
      apply cr_skip; assumption.
Qed.

Lemma delete_entry_unmarked (temp_cases : list case) (fs_case : case) :
  delete_entry temp_cases fs_case = true -> update_time fs_case <> SENTINEL.
Proof.
  unfold delete_entry.
  destruct (string_dec (update_time fs_case) SENTINEL); [discriminate | auto].
Qed.

Lemma delete_entry_absent (temp_cases : list case) (fs_case : case) :
  delete_entry temp_cases fs_case = true ->
  forall t_case,
    In t_case temp_cases -> case_number t_case <> case_number fs_case.
Proof.
  unfold delete_entry, in_live.
  destruct (string_dec (update_time fs_case) SENTINEL); [discriminate |].
  intros H t_case Hin E. apply negb_true_iff in H.
  assert (Hex : existsb
            (fun t => if string_dec (case_number t) (case_number fs_case)
                      then true else false) temp_cases = true).
  { apply existsb_exists. exists t_case. split; [exact Hin |].
    destruct (string_dec (case_number t_case) (case_number fs_case));
      [reflexivity | contradiction]. }
  rewrite Hex in H. discriminate.
Qed.

Lemma closure_run_skips_marked (temp_cases cases : list case)
  (l : list action) (cases' : list case) (closed : list string)
  (c : string) :
  closure_run temp_cases cases l cases' closed ->
  (forall fs_case,
      In fs_case cases -> case_number fs_case = c ->
      update_time fs_case = SENTINEL) ->
  Forall (untouched c) l
  /\ ~ In c closed
  /\ (forall fs_case,
         In fs_case cases -> case_number fs_case = c -> In fs_case cases').
Proof.
  intros Hrun. induction Hrun as
    [| fs_case rest l rest' closed Hdel Hrun IH
     | fs_case g doc rest l rest' closed Hdel Hg Hrun IH
     | fs_case g d rest l rest' closed Hdel Hg Hrun IH]; intro Hmarked.
  - repeat split; [constructor | intros [] | intros ? []].
  - destruct IH as (Hl & Hc & Hk); [intros; apply Hmarked; simpl; auto |].
    repeat split; [assumption | assumption |].
    intros fs [<- | Hin] E; [left; reflexivity | right; auto].
  - assert (Hne : case_number fs_case <> c).
    { intro E. apply (delete_entry_unmarked _ _ Hdel).
      apply Hmarked; simpl; auto. }
    destruct IH as (Hl & Hc & Hk); [intros; apply Hmarked; simpl; auto |].
    repeat split.
    + repeat apply Forall_cons; simpl; try assumption; congruence.
    + intros [E | Hin]; [exact (Hne E) | exact (Hc Hin)].
    + intros fs [<- | Hin] E; [contradiction | right; auto].
  - assert (Hne : case_number fs_case <> c).
    { intro E. apply (delete_entry_unmarked _ _ Hdel).
      apply Hmarked; simpl; auto. }
    destruct IH as (Hl & Hc & Hk); [intros; apply Hmarked; simpl; auto |].
    repeat split.
    + repeat apply Forall_cons; simpl; assumption.
    + exact Hc.
    + intros fs [<- | Hin] E; [contradiction | right; auto].
Qed.

(** C10. A snapshot whose update time is the sentinel is skipped by closure
    detection: when every stored snapshot of case [c] carries the sentinel,
    the closure loop logs no write, no first-writer lookup and no
    notification about [c], does not queue [c] for deletion, and leaves
    those snapshots as they are, whether or not [c] is among the fetched
    cases. *)
Theorem marked_snapshots_are_skipped (temp_cases cases : list case)
  (c : string) (s : locals W) :
  (forall fs_case,
      In fs_case cases -> case_number fs_case = c ->
      update_time fs_case = SENTINEL) ->
  Forall (untouched c) (log_of (closure_loop env temp_cases cases s))
  /\ exists cases' closed,
       outcome_of (closure_loop env temp_cases cases s) = Ok (cases', closed)
       /\ ~ In c closed
       /\ (forall fs_case,
              In fs_case cases -> case_number fs_case = c ->
              In fs_case cases').
Proof.
  intro Hmarked.
  destruct (closure_loop_run temp_cases cases s)
    as (l & cases' & closed & s' & Hrun & Hrel).
  destruct (closure_run_skips_marked _ _ _ _ _ c Hrel Hmarked)
    as (Hl & Hc & Hk).
  rewrite Hrun. split; [exact Hl |].
  exists cases', closed. auto.
Qed.


End ClosureDetection.

(** ** The shape of one loop iteration *)

Section Cycle.

Context {W raw : Type} (env : Env W raw).

Lemma parse_loop_log (resp : list raw) (temp_cases : list case) :
  emits fetch_action (parse_loop env resp temp_cases).
Proof.
  revert temp_cases. induction resp as [| c rest IH]; intro temp_cases;
    cbn [parse_loop]; [apply emits_ret |].
  apply emits_bind; [emits_auto | intros [temp_case | e]].
  - apply IH.
  - emits_auto.
Qed.

Lemma update_pair_log (t_case fs_case : case) :
  emits update_action (update_pair env t_case fs_case).
Proof.
  unfold update_pair, refresh_first_writer, comment_check, priority_check,
    escalation_check.
  emits_auto.
Qed.

Lemma match_loop_log (t_case : case) (cases : list case) (is_new : bool) :
  emits update_action (match_loop env t_case cases is_new).
Proof.
  revert is_new. induction cases as [| fs_case rest IH]; intro is_new;
    cbn [match_loop]; [apply emits_ret |].
  destruct (string_dec _ _); [| apply IH].
  apply emits_bind; [apply update_pair_log | intros _; apply IH].
Qed.

Lemma subscription_is_update (a : action) :
  subscription_action a -> update_action a.
Proof. destruct a; simpl; tauto. Qed.

Lemma update_case_log (cases : list case) (t_case : case) :
  emits update_action (update_case env cases t_case).
Proof.
  unfold update_case.
  apply emits_bind; [apply match_loop_log | intros [|]].
  - apply emits_bind; [emits_auto | intros _].
    eapply emits_weaken; [apply subscription_is_update | apply auto_cc_log].
  - apply emits_ret.
Qed.

Lemma update_loop_log (temp_cases cases : list case) :
  emits update_action (update_loop env temp_cases cases).
Proof.
  induction temp_cases as [| t_case rest IH]; cbn [update_loop];
    [apply emits_ret |].
  apply emits_bind; [apply update_case_log | intros _; exact IH].
Qed.

Lemma delete_loop_run (closed_cases : list string) (s : locals W) :
  log_of (delete_loop env closed_cases s) = map ADelete closed_cases
  /\ outcome_of (delete_loop env closed_cases s) = Ok tt.
Proof.
  revert s. induction closed_cases as [| c rest IH]; intro s;
    [split; reflexivity |].
  cbn [delete_loop]. unfold bind, exec.
  match goal with
  | |- context [delete_loop env rest ?s1] =>
      destruct (IH s1) as [Hl Ho];
      destruct (delete_loop env rest s1) as [l [o s2]]
  end.
  unfold log_of, outcome_of in *. simpl in *. subst. split; reflexivity.
Qed.

Lemma closure_run_log temp_cases cases l cases' closed :
  closure_run temp_cases cases l cases' closed -> Forall reconcile_action l.
Proof.
  induction 1; repeat apply Forall_cons; simpl; auto.
Qed.

Lemma update_is_reconcile (a : action) :
  update_action a -> reconcile_action a.
Proof. destruct a as [| | | | | | ? [] ? | | | | |]; simpl; tauto. Qed.

Lemma cycle_has_shape (is_test : bool) (s : locals W) :
  cycle_shape is_test (log_of (cycle env is_test s))
    (outcome_of (cycle env is_test s)).
Proof.
  destruct (cycle env is_test s) as [l [o s']] eqn:Hrun.
  unfold log_of, outcome_of. cbn [fst snd].
  unfold cycle in Hrun.
  apply bind_inv in Hrun.
  destruct Hrun as [(l1 & cases & s1 & l2 & H1 & Hrun & ->) | (e & H1 & _)];
    [| apply call_inv in H1; destruct H1 as (? & [=] & _)].
  apply call_inv in H1. destruct H1 as (? & [= <-] & _ & ->).
  apply bind_inv in Hrun.
  destruct Hrun as [(l3 & r & s2 & l4 & H2 & Hrun & ->) | (e & H2 & _)];
    [| apply call_inv in H2; destruct H2 as (? & [=] & _)].
  apply call_inv in H2. destruct H2 as (? & [= <-] & _ & ->).
  destruct r as [resp | e].
  - apply bind_inv in Hrun.
    pose proof (parse_loop_log resp [] s2) as Hparse. unfold log_of in Hparse.
    destruct Hrun as [(lp & p & s3 & l5 & H3 & Hrun & ->) | (e & H3 & ->)];
      rewrite H3 in Hparse; cbn [fst] in Hparse.
    + destruct p as [temp_cases |].
      * apply bind_inv in Hrun.
        destruct (closure_loop_run env temp_cases cases s3)
          as (lc & cases' & closed & s4 & Hc & Hrel).
        rewrite Hc in Hrun.
        destruct Hrun as [(? & r & ? & l6 & [= <- <- <-] & Hrun & ->)
                         | (e & [=] & _)].
        cbn [fst snd] in Hrun.
        apply bind_inv in Hrun.
        pose proof (update_loop_log temp_cases cases' s4) as Hupd.
        unfold log_of in Hupd.
        destruct Hrun as [(lu & [] & s5 & l7 & H5 & Hrun & ->)
                         | (e & H5 & ->)];
          rewrite H5 in Hupd; cbn [fst] in Hupd.
        -- apply bind_inv in Hrun.
           destruct Hrun as [(? & [] & s6 & l8 & [= <- <-] & Hrun & ->)
                            | (e & [=] & _)].
           apply bind_inv in Hrun.
           destruct Hrun as [(ld & [] & s7 & l9 & H7 & [= <- <- <-] & ->)
                            | (e & H7 & _)];
             match type of H7 with
             | delete_loop env closed ?x = _ =>
                 destruct (delete_loop_run closed x) as [Hdl Hdo]
             end;
             unfold log_of, outcome_of in Hdl, Hdo;
             rewrite H7 in Hdl, Hdo; cbn [fst snd] in Hdl, Hdo;
             [| discriminate Hdo].
           subst ld.
           apply completed with (head := [AGetCases; ASearch] ++ lp)
             (temp_cases := temp_cases) (cases := cases) (closing := lc)
             (cases' := cases') (closed := closed) (updating := lu);
             [same_log | | exact Hrel | exact Hupd | reflexivity].
           apply Forall_app. split; [repeat constructor | assumption].
        -- apply crashed with (head := [AGetCases; ASearch] ++ lp)
             (body := lc ++ l6) (e := e); [same_log | | | reflexivity].
           ++ apply Forall_app. split; [repeat constructor | assumption].
           ++ apply Forall_app. split.
              ** eapply closure_run_log; exact Hrel.
              ** eapply Forall_impl; [apply update_is_reconcile | exact Hupd].
      * apply bind_inv in Hrun.
        destruct Hrun as [(? & [] & s6 & l8 & [= <- <-] & [= <- <- <-] & ->)
                         | (e & [=] & _)].
        apply deferred with (head := [AGetCases; ASearch] ++ lp);
          [same_log | | reflexivity].
        apply Forall_app. split; [repeat constructor | assumption].
    + apply crashed with (head := [AGetCases; ASearch] ++ l4) (body := [])
        (e := e); [same_log | | constructor | reflexivity].
      apply Forall_app. split; [repeat constructor | assumption].
  - destruct (is_BrokenPipeError e).
    + cbv in Hrun. injection Hrun as <- <- <-.
      apply deferred with (head := [AGetCases; ASearch; ALog e]);
        [reflexivity | repeat constructor | reflexivity].
    + cbv in Hrun. injection Hrun as <- <- <-.
      apply crashed with (head := [AGetCases; ASearch]) (body := []) (e := e);
        [reflexivity | repeat constructor | constructor | reflexivity].
Qed.

Lemma deletions_app (l1 l2 : list action) :
  deletions (l1 ++ l2) = deletions l1 ++ deletions l2.
Proof.
  induction l1 as [| a l1 IH]; [reflexivity |].
  destruct a; cbn [app deletions]; rewrite IH; reflexivity.
Qed.

Lemma closed_events_app (l1 l2 : list action) :
  closed_events (l1 ++ l2) = closed_events l1 ++ closed_events l2.
Proof.
  induction l1 as [| a l1 IH]; [reflexivity |].
  destruct a as [| | | | | | [c | c] [] p | | | | |];
    cbn [app closed_events]; rewrite IH; reflexivity.
Qed.

Lemma deletions_none (P : action -> Prop) (l : list action) :
  (forall c, ~ P (ADelete c)) -> Forall P l -> deletions l = [].
Proof.
  intros HP. induction 1 as [| a l Ha _ IH]; [reflexivity |].
  destruct a; cbn [deletions]; try exact IH. destruct (HP _ Ha).
Qed.

Lemma closed_events_none (P : action -> Prop) (l : list action) :
  (forall subj p, ~ P (ANotify subj Closed p)) -> Forall P l ->
  closed_events l = [].
Proof.
  intros HP. induction 1 as [| a l Ha _ IH]; [reflexivity |].
  destruct a as [| | | | | | [c | c] [] p | | | | |];
    cbn [closed_events]; try exact IH; destruct (HP _ _ Ha).
Qed.

Lemma deletions_map (closed : list string) :
  deletions (map ADelete closed) = closed.
Proof. induction closed as [| c rest IH]; simpl; congruence. Qed.

Lemma closed_events_map (closed : list string) :
  closed_events (map ADelete closed) = [].
Proof. induction closed as [| c rest IH]; simpl; congruence. Qed.

Lemma closure_run_closed temp_cases cases l cases' closed :
  closure_run temp_cases cases l cases' closed -> closed_events l = closed.
Proof. induction 1; simpl; congruence. Qed.

Lemma closure_run_marks temp_cases cases l cases' closed :
  closure_run temp_cases cases l cases' closed ->
  Forall
    (fun c =>
       exists fs_case g,
         case_number fs_case = c
         /\ In (AWrite "cases" (set_update_time fs_case SENTINEL) g) l)
    closed.
Proof.
  induction 1 as
    [| fs_case rest l rest' closed Hdel Hrun IH
     | fs_case g doc rest l rest' closed Hdel Hg Hrun IH
     | fs_case g d rest l rest' closed Hdel Hg Hrun IH].
  - constructor.
  - exact IH.
  - constructor.
    + exists fs_case, g. split; [reflexivity | left; reflexivity].
    + eapply Forall_impl; [| exact IH].
      intros c (fs & g' & E & Hin). exists fs, g'. simpl. auto.
  - eapply Forall_impl; [| exact IH].
    intros c (fs & g' & E & Hin). exists fs, g'. simpl. auto.
Qed.

Lemma fetch_not_delete (c : string) : ~ fetch_action (ADelete c).
Proof. intros []. Qed.

Lemma reconcile_not_delete (c : string) : ~ reconcile_action (ADelete c).
Proof. intros []. Qed.

Lemma update_not_delete (c : string) : ~ update_action (ADelete c).
Proof. intros []. Qed.

Lemma no_deletion (P : action -> Prop) (l : list action) :
  (forall c, ~ P (ADelete c)) -> Forall P l ->
  Forall (fun a => forall c, a <> ADelete c) l.
Proof.
  intros HP Hl. eapply Forall_impl; [| exact Hl].
  intros a Ha c ->. exact (HP c Ha).
Qed.

Lemma fetch_writes_nothing (head rest : list action) :
  Forall fetch_action head -> writes (head ++ rest) = writes rest.
Proof.
  induction 1 as [| a head Ha _ IH]; [reflexivity |].
  destruct a; cbn [app writes]; try exact IH; destruct Ha.
Qed.

(** C4, as the code has it. In one iteration of the loop no snapshot is
    deleted before the 10-second sleep. An iteration that does not reach
    that sleep deletes nothing; it has raised, or it was deferred without
    writing anything. Every other iteration ends with the sleep followed by
    the deletions, which are exactly the cases it announced as closed
    before the sleep (the cases queued in [closed_cases]), in that order;
    each of them had its snapshot rewritten with the sentinel update time
    before the sleep of that same iteration. *)
Theorem deletions_follow_the_sleep (is_test : bool) (s : locals W) :
  exists before,
    Forall (fun a => forall c, a <> ADelete c) before
    /\ (log_of (cycle env is_test s) = before
        /\ ~ In (ASleep 10) before
        /\ ((exists e, outcome_of (cycle env is_test s) = Raise e)
            \/ outcome_of (cycle env is_test s) = Ok Continue
               /\ writes before = [])
        \/ log_of (cycle env is_test s) =
             before ++ ASleep 10 :: map ADelete (closed_events before)
           /\ outcome_of (cycle env is_test s)
              = Ok (if is_test then Break else Continue)
           /\ Forall
                (fun c =>
                   exists fs_case g,
                     case_number fs_case = c
                     /\ In (AWrite "cases"
                              (set_update_time fs_case SENTINEL) g)
                          before)
                (closed_events before)).
Proof.
  destruct (cycle_has_shape is_test s) as
    [head Hl Hhead Ho
    | head body e Hl Hhead Hbody Ho
    | head temp_cases cases closing cases' closed updating Hl Hhead Hrun
        Hupd Ho].
  - exists (head ++ [ASleep 5]). split.
    + apply Forall_app. split.
      * eapply no_deletion; [apply fetch_not_delete | exact Hhead].
      * repeat constructor. discriminate.
    + left. split; [exact Hl |]. split.
      * intro Hin. apply in_app_or in Hin.
        destruct Hin as [Hin | [[=] | []]].
        rewrite Forall_forall in Hhead. exact (Hhead _ Hin).
      * right. split; [exact Ho |].
        rewrite (fetch_writes_nothing _ _ Hhead). reflexivity.
  - exists (head ++ body). split.
    + apply Forall_app. split.
      * eapply no_deletion; [apply fetch_not_delete | exact Hhead].
      * eapply no_deletion; [apply reconcile_not_delete | exact Hbody].
    + left. split; [exact Hl |]. split.
      * intro Hin. apply in_app_or in Hin.
        rewrite Forall_forall in Hhead, Hbody.
        destruct Hin as [Hin | Hin];
          [exact (Hhead _ Hin) | exact (Hbody _ Hin)].
      * left. exists e. exact Ho.
  - assert (Hclosed : closed_events (head ++ closing ++ updating) = closed).
    { rewrite !closed_events_app.
      rewrite (closed_events_none fetch_action head);
        [| intros subj p [] | exact Hhead].
      rewrite (closure_run_closed _ _ _ _ _ Hrun).
      rewrite (closed_events_none update_action updating);
        [| intros subj p [] | exact Hupd].
      rewrite app_nil_r. reflexivity. }
    exists (head ++ closing ++ updating). split.
    + apply Forall_app. split;
        [eapply no_deletion; [apply fetch_not_delete | exact Hhead] |].
      apply Forall_app. split.
      * eapply no_deletion; [apply reconcile_not_delete |].
        eapply closure_run_log; exact Hrun.
      * eapply no_deletion; [apply update_not_delete | exact Hupd].
    + right. rewrite Hclosed. split; [| split; [exact Ho |]].
      * rewrite Hl. rewrite <- !app_assoc. reflexivity.
      * eapply Forall_impl; [| eapply closure_run_marks; exact Hrun].
        intros c (fs & g & E & Hin). exists fs, g. split; [exact E |].
        apply in_or_app. right. apply in_or_app. left. exact Hin.
Qed.

(** C5, as the code has it. The closure loop queues a case exactly where it
    emits the closed notification: a marked snapshot whose write returned
    the guid of the first-writer record ([cr_won]) is notified and queued,
    one whose guid does not match or that has no first-writer record
    ([cr_lost]) is neither. An iteration that returns then deletes, after
    its sleep, exactly the cases it announced as closed; an iteration that
    raises deletes none, whatever it has queued. *)
Theorem deletions_are_the_closed_events :
  (forall temp_cases cases (s : locals W),
      exists cases' closed,
        outcome_of (closure_loop env temp_cases cases s)
          = Ok (cases', closed)
        /\ closure_run temp_cases cases
             (log_of (closure_loop env temp_cases cases s)) cases' closed)
  /\ (forall is_test (s : locals W),
         deletions (log_of (cycle env is_test s))
         = match outcome_of (cycle env is_test s) with
           | Ok _ => closed_events (log_of (cycle env is_test s))
           | Raise _ => []
           end).
Proof.
  split.
  - intros temp_cases cases s.
    destruct (closure_loop_run env temp_cases cases s)
      as (l & cases' & closed & s' & Hrun & Hrel).
    exists cases', closed. rewrite Hrun. auto.
  - intros is_test s.
    destruct (cycle_has_shape is_test s) as
      [head Hl Hhead Ho
      | head body e Hl Hhead Hbody Ho
      | head temp_cases cases closing cases' closed updating Hl Hhead Hrun
          Hupd Ho]; rewrite Ho, Hl.
    + rewrite deletions_app, closed_events_app.
      rewrite (deletions_none _ _ fetch_not_delete Hhead).
      rewrite (closed_events_none fetch_action head);
        [reflexivity | | exact Hhead].
      intros subj p [].
    + rewrite deletions_app.
      rewrite (deletions_none _ _ fetch_not_delete Hhead).
      rewrite (deletions_none _ _ reconcile_not_delete Hbody).
      reflexivity.
    + rewrite !deletions_app, !closed_events_app.
      rewrite (deletions_none _ _ fetch_not_delete Hhead).
      rewrite (closed_events_none fetch_action head);
        [| intros subj p [] | exact Hhead].
      rewrite (deletions_none _ _ reconcile_not_delete
                 (closure_run_log _ _ _ _ _ Hrun)).
      rewrite (closure_run_closed _ _ _ _ _ Hrun).
      rewrite (deletions_none _ _ update_not_delete Hupd).
      rewrite (closed_events_none update_action updating);
        [| intros subj p [] | exact Hupd].
      cbn [deletions closed_events app].
      rewrite deletions_map, closed_events_map, app_nil_r. reflexivity.
Qed.

End Cycle.

(** ** A case that cannot be parsed *)

Section ParseFailure.

Context {W raw : Type} (env : Env W raw).

Lemma parse_loop_skips (before after : list raw) (bad : raw) (e : exn)
  (w3 w4 : W) :
  SupportCase env bad w3 = (Raise e, w4) ->
  is_NameError e = true ->
  forall (parsed temp_cases : list case) (s : locals W),
    all_parsed env before (world s) = Some (parsed, w3) ->
    parse_loop env (before ++ bad :: after) temp_cases s =
    ([ALog e], (Ok None, mkLocals w4 (guid s) (first_doc_in s))).
Proof.
  intros Hbad He. induction before as [| c rest IH];
    intros parsed temp_cases s Hpre.
  - injection Hpre as <- <-.
    cbn [app parse_loop]. unfold bind, call. rewrite Hbad, He. reflexivity.
  - cbn [all_parsed] in Hpre. cbn [app parse_loop]. unfold bind at 1.
    unfold call at 1.
    destruct (SupportCase env c (world s)) as [[temp_case | e'] w'];
      [| discriminate].
    destruct (all_parsed env rest w') as [[l w''] |] eqn:Hrest; [| discriminate].
    injection Hpre as <- <-.
    rewrite (IH l (temp_cases ++ [temp_case])
               (mkLocals w' (guid s) (first_doc_in s)) Hrest).
    reflexivity.
Qed.

(** C9, as the code has it. When [SupportCase] fails on a fetched case
    with the [NameError] the parsing loop handles, after the cases before
    it were built, the iteration logs the error, sleeps 5 seconds and ends
    without any store write, deletion or notification; the loop is not
    left, and its next iteration starts from the stored snapshots as they
    were. *)
Theorem parse_failure_defers_the_cycle (is_test : bool) (s : locals W)
  (before after : list raw) (bad : raw) (e : exn) (parsed : list case)
  (w2 w3 w4 : W) :
  search_execute env (snd (get_firestore_cases env (world s)))
    = (Ok (before ++ bad :: after), w2) ->
  all_parsed env before w2 = Some (parsed, w3) ->
  SupportCase env bad w3 = (Raise e, w4) ->
  is_NameError e = true ->
  let s' := mkLocals (sleep env 5 w4) (guid s) (first_doc_in s) in
  cycle env is_test s
    = ([AGetCases; ASearch; ALog e; ASleep 5], (Ok Continue, s'))
  /\ forall fuel,
       log_of (case_updates env (S fuel) is_test s)
         = [AGetCases; ASearch; ALog e; ASleep 5]
           ++ log_of (case_updates env fuel is_test s')
       /\ outcome_of (case_updates env (S fuel) is_test s)
          = outcome_of (case_updates env fuel is_test s').
Proof.
  intros Hsearch Hpre Hbad He s'.
  assert (Hcycle : cycle env is_test s
            = ([AGetCases; ASearch; ALog e; ASleep 5], (Ok Continue, s'))).
  { unfold cycle. unfold bind at 1. unfold call at 1.
    destruct (get_firestore_cases env (world s)) as [cases w1].
    cbn [snd] in Hsearch.
    unfold bind at 1. unfold attempt at 1. unfold call at 1. cbn [world].
    rewrite Hsearch. unfold bind at 1.
    rewrite (parse_loop_skips before after bad e w3 w4 Hbad He parsed []
               (mkLocals w2 _ _) Hpre).
    reflexivity. }
  split; [exact Hcycle |].
  intro fuel.
  assert (Hloop : case_updates env (S fuel) is_test s
            = ([AGetCases; ASearch; ALog e; ASleep 5]
               ++ fst (case_updates env fuel is_test s'),
               snd (case_updates env fuel is_test s'))).
  { cbn [case_updates]. unfold bind at 1. rewrite Hcycle.
    destruct (case_updates env fuel is_test s') as [l os]. reflexivity. }
  rewrite Hloop. split; reflexivity.
Qed.

End ParseFailure.

(** ** Errors while resolving the hierarchy *)

Section HierarchyErrors.

Context {W raw : Type} (env : Env W raw).

(** C8, as the code has it. When the project lookup raises
    [BrokenPipeError], [auto_cc] logs the error and returns normally to the
    loop without subscribing anyone or commenting on the case. *)
Theorem broken_pipe_skips_auto_subscription (c : case) (s : locals W)
  (channels : list string) (parent project_id : string) (w1 w2 w3 : W) :
  tracked_assets env (world s) = (channels, w1) ->
  get_parent env (case_number c) w1 = (Ok parent, w2) ->
  re_search "projects/" not_slash parent = Some project_id ->
  projects_get env project_id w2 = (Raise BrokenPipeError, w3) ->
  auto_cc env c s
    = ([AGetParent (case_number c); AProjectGet project_id;
        ALog BrokenPipeError],
       (Ok tt, mkLocals w3 (guid s) (first_doc_in s))).
Proof.
  intros Hchannels Hparent Hsearch Hproject.
  unfold auto_cc. unfold bind at 1. unfold call at 1. rewrite Hchannels.
  unfold bind at 1. unfold resolve_hierarchy. unfold bind at 1.
  unfold attempt at 1. unfold call at 1. cbn [world]. rewrite Hparent.
  unfold bind at 1. cbn [reraise]. unfold ret at 1. rewrite Hsearch.
  unfold bind at 1. unfold attempt at 1. unfold call at 1. cbn [world].
  rewrite Hproject. reflexivity.
Qed.

End HierarchyErrors.

(** ** Two defects, in general *)

Section Defects.

Context {W raw : Type} (env : Env W raw).

(** X16. With an unchanged update time nothing is written or looked up,
    and the first-writer test is made on what the two variables still hold:
    if they hold a guid and a first-writer record of the same guid, left by
    an earlier write, a changed priority is notified. *)
Lemma stale_first_writer_notifies (t_case fs_case : case) (s : locals W)
  (doc : first_doc) :
  update_time t_case = update_time fs_case ->
  comment_list fs_case = comment_list t_case ->
  priority fs_case <> priority t_case ->
  escalated fs_case = escalated t_case ->
  guid s = Some (doc_guid doc) ->
  first_doc_in s = Some (Some doc) ->
  log_of (update_pair env t_case fs_case s)
    = [ANotify (ByNumber (case_number t_case)) Priority
         (PStr (priority t_case))]
  /\ outcome_of (update_pair env t_case fs_case s) = Ok tt.
Proof.
  intros Htime Hcomments Hpriority Hescalated Hguid Hfirst.
  unfold update_pair, refresh_first_writer, comment_check, priority_check,
    escalation_check.
  destruct (string_dec (update_time t_case) (update_time fs_case));
    [| contradiction].
  destruct (comments_eq_dec (comment_list fs_case) (comment_list t_case));
    [| contradiction].
  destruct (string_dec (priority fs_case) (priority t_case));
    [contradiction |].
  destruct (Bool.bool_dec (escalated fs_case) (escalated t_case));
    [| contradiction].
  unfold bind, ret, guid_is_first. rewrite Hguid, Hfirst.
  unfold ret. destruct (string_dec (doc_guid doc) (doc_guid doc));
    [| contradiction].
  split; reflexivity.
Qed.

(** Whenever the body of the channel loop returns, it has posted the
    comment, whatever the subscriptions added. *)
Lemma channel_step_always_comments (case_num : string)
  (org_id : option string) (folders : list string)
  (project_id channel : string) (s : locals W) :
  outcome_of (channel_step env case_num org_id folders project_id channel s)
    = Ok tt ->
  exists response,
    In (AAddComment channel case_num response "" "Auto Asset Subscription"
          false)
       (log_of
          (channel_step env case_num org_id folders project_id channel s)).
Proof.
  destruct (channel_step env case_num org_id folders project_id channel s)
    as [l [o s']] eqn:Hrun.
  unfold outcome_of, log_of. cbn [fst snd]. intros ->.
  unfold channel_step in Hrun.
  apply bind_inv in Hrun.
  destruct Hrun as [(l1 & org_new & s1 & l2 & _ & Hrun & ->) | (e & _ & [=])].
  apply bind_inv in Hrun.
  destruct Hrun as [(l3 & folder_new & s2 & l4 & _ & Hrun & ->)
                   | (e & _ & [=])].
  apply bind_inv in Hrun.
  destruct Hrun as [(l5 & project_new & s3 & l6 & _ & Hrun & ->)
                   | (e & _ & [=])].
  cbv beta iota zeta in Hrun. unfold exec in Hrun.
  injection Hrun as <- _.
  eexists. apply in_or_app. right. apply in_or_app. right.
  apply in_or_app. right. left. reflexivity.
Qed.

End Defects.

(** ** The program on concrete worlds *)

Section Runs.

Import Examples.

(** Witness of C2: case A with a new update time, a new support comment, a
    new priority and an escalation. *)
Lemma update_notifications_need_first_writer_witness :
  update_time caseA_busy <> update_time caseA
  /\ exists notifications,
       log_of (update_pair Sim.env caseA_busy caseA
                 (Sim.start (Sim.store [caseA] [Ok caseA_busy]))) =
         AWrite "cases" caseA_busy
           (written_guid Sim.env caseA_busy
              (Sim.start (Sim.store [caseA] [Ok caseA_busy])))
         :: AFirstIn (case_number caseA_busy) (update_time caseA_busy)
              (first_writer_record Sim.env caseA_busy
                 (Sim.start (Sim.store [caseA] [Ok caseA_busy])))
         :: notifications
       /\ Forall (fun a => exists subj k p, a = ANotify subj k p)
            notifications
       /\ (notifications <> [] ->
           exists doc,
             first_writer_record Sim.env caseA_busy
               (Sim.start (Sim.store [caseA] [Ok caseA_busy])) = Some doc
             /\ written_guid Sim.env caseA_busy
                  (Sim.start (Sim.store [caseA] [Ok caseA_busy]))
                = doc_guid doc).
Proof.
  split; [discriminate |].
  apply (update_notifications_need_first_writer Sim.env caseA_busy caseA
           (Sim.start (Sim.store [caseA] [Ok caseA_busy]))).
  discriminate.
Defined.

(** What that run logs: the winner of the first-writer test notifies the
    comment, the priority and the escalation. *)
Example update_pair_winner :
  log_of (update_pair Sim.env caseA_busy caseA
            (Sim.start (Sim.store [caseA] [Ok caseA_busy]))) =
  [AWrite "cases" caseA_busy "guid-0";
   AFirstIn "A" "T1" (Some (mkFirstDoc "guid-0"));
   ANotify (ByNumber "A") Comment (PStr "We are on it.");
   ANotify (ByNumber "A") Priority (PStr "P1");
   ANotify (ByCase caseA_busy) Escalated (PBool true)].
Proof. reflexivity. Qed.

(** The same update seen by an instance that is not the first writer. *)
Example update_pair_loser :
  log_of (update_pair Sim.env caseA_busy caseA
            (Sim.start (Sim.store_behind [caseA] [Ok caseA_busy] "A" "T1"))) =
  [AWrite "cases" caseA_busy "guid-0";
   AFirstIn "A" "T1" (Some (mkFirstDoc "guid-of-another-instance"))].
Proof. reflexivity. Qed.

(** A comment of the customer: the update is written, nothing is
    notified. *)
Example customer_comment_is_silent :
  log_of (update_pair Sim.env caseA_asked caseA
            (Sim.start (Sim.store [caseA] [Ok caseA_asked]))) =
  [AWrite "cases" caseA_asked "guid-0";
   AFirstIn "A" "T1" (Some (mkFirstDoc "guid-0"))].
Proof. reflexivity. Qed.

(** C3, at a failing input. Case B is fetched with the update time of its
    snapshot and another priority, after case A, whose update won the
    first-writer test: the iteration notifies B's priority, on the guid and
    the first-writer record left by A's update. *)
Theorem unchanged_update_time_still_notifies :
  update_time caseB_same_time = update_time caseB
  /\ log_of (cycle Sim.env true (Sim.start glitch_world)) =
       [AGetCases; ASearch;
        AWrite "cases" caseA_later "guid-0";
        AFirstIn "A" "T1" (Some (mkFirstDoc "guid-0"));
        ANotify (ByNumber "B") Priority (PStr "P1");
        ASleep 10]
  /\ outcome_of (cycle Sim.env true (Sim.start glitch_world)) = Ok Break.
Proof. repeat split. Qed.

(** The two variables survive the iteration, and B's snapshot is not
    rewritten: the next iteration notifies the same priority again. *)
Example unchanged_update_time_notifies_again :
  log_of (case_updates Sim.env 2 false (Sim.start glitch_world)) =
  [AGetCases; ASearch;
   AWrite "cases" caseA_later "guid-0";
   AFirstIn "A" "T1" (Some (mkFirstDoc "guid-0"));
   ANotify (ByNumber "B") Priority (PStr "P1");
   ASleep 10;
   AGetCases; ASearch;
   ANotify (ByNumber "B") Priority (PStr "P1");
   ASleep 10].
Proof. reflexivity. Qed.

(** C1, at a failing input with one instance. Case B is fetched in two
    consecutive iterations with the update time of its snapshot and another
    priority; the single instance sends the priority notification for the
    same (B, T0, priority) in each of them, not once. *)
Theorem single_instance_notifies_twice :
  update_time caseB_same_time = update_time caseB
  /\ notified "B" Priority
       (log_of (case_updates Sim.env 2 false (Sim.start glitch_world)))
     = [PStr "P1"; PStr "P1"]
  /\ outcome_of (case_updates Sim.env 2 false (Sim.start glitch_world))
     = Ok false.
Proof. repeat split. Qed.

(** With nothing written before, the same fetched case stops the loop. *)
Example unchanged_update_time_unbound :
  outcome_of (cycle Sim.env true
                (Sim.start (Sim.store [caseB] [Ok caseB_same_time])))
  = Raise UnboundLocalError.
Proof. reflexivity. Qed.

(** What an iteration does when case A has left the fetched set. *)
Example closing_run :
  log_of (cycle Sim.env true (Sim.start closing_world)) =
  [AGetCases; ASearch;
   AWrite "cases" caseA_marked "guid-0";
   AFirstIn "A" SENTINEL (Some (mkFirstDoc "guid-0"));
   ANotify (ByNumber "A") Closed (PStr "");
   ASleep 10;
   ADelete "A"].
Proof. reflexivity. Qed.

(** Counterexample to C4 as stated: the iteration that first finds case A
    absent marks its snapshot and deletes it, after its sleep. *)
Lemma closure_is_not_delayed :
  ~ closure_is_delayed (log_of (cycle Sim.env true (Sim.start closing_world))).
Proof.
  intro H. apply (H caseA "guid-0"); rewrite closing_run; simpl; auto 10.
Qed.

(** The same situation for an instance that is not the first writer. *)
Example closing_run_behind :
  log_of (cycle Sim.env true (Sim.start closing_world_behind)) =
  [AGetCases; ASearch;
   AWrite "cases" caseA_marked "guid-0";
   AFirstIn "A" SENTINEL (Some (mkFirstDoc "guid-of-another-instance"));
   ASleep 10]
  /\ outcome_of (cycle Sim.env true (Sim.start closing_world_behind))
     = Ok Break.
Proof. split; reflexivity. Qed.

(** Counterexample to C5 as stated: the instance that lost the first-writer
    test marks the snapshot of A and completes its iteration without
    deleting it. *)
Lemma loser_does_not_delete :
  outcome_of (cycle Sim.env true (Sim.start closing_world_behind)) = Ok Break
  /\ ~ marked_are_deleted
        (log_of (cycle Sim.env true (Sim.start closing_world_behind))).
Proof.
  split; [reflexivity |].
  intro H. specialize (H caseA "guid-0").
  destruct closing_run_behind as [E _]. rewrite E in H.
  simpl in H. destruct H as [H | [H | [H | [H | [H | []]]]]]; auto;
    discriminate H.
Qed.

(** The first writer's iteration deletes what it announced. *)
Example winner_deletes :
  deletions (log_of (cycle Sim.env true (Sim.start closing_world))) = ["A"]
  /\ closed_events (log_of (cycle Sim.env true (Sim.start closing_world)))
     = ["A"].
Proof. split; reflexivity. Qed.

(** Witness of C10: the snapshot of A is marked and A is still absent. *)
Lemma marked_snapshots_are_skipped_witness :
  (forall fs_case,
      In fs_case [caseA_marked; caseB] -> case_number fs_case = "A" ->
      update_time fs_case = SENTINEL)
  /\ Forall (untouched "A")
       (log_of (closure_loop Sim.env [caseB] [caseA_marked; caseB]
                  (Sim.start marked_world)))
  /\ exists cases' closed,
       outcome_of (closure_loop Sim.env [caseB] [caseA_marked; caseB]
                     (Sim.start marked_world)) = Ok (cases', closed)
       /\ ~ In "A" closed
       /\ (forall fs_case,
              In fs_case [caseA_marked; caseB] -> case_number fs_case = "A" ->
              In fs_case cases').
Proof.
  assert (Hmarked : forall fs_case,
             In fs_case [caseA_marked; caseB] -> case_number fs_case = "A" ->
             update_time fs_case = SENTINEL).
  { intros fs_case [<- | [<- | []]] E; [reflexivity | discriminate E]. }
  split; [exact Hmarked |].
  apply (marked_snapshots_are_skipped Sim.env [caseB] [caseA_marked; caseB]
           "A" (Sim.start marked_world) Hmarked).
Defined.

(** With A marked and nothing fetched, the iteration marks B only. *)
Example marked_run :
  log_of (cycle Sim.env true (Sim.start marked_world)) =
  [AGetCases; ASearch;
   AWrite "cases" (set_update_time caseB SENTINEL) "guid-0";
   AFirstIn "B" SENTINEL (Some (mkFirstDoc "guid-0"));
   ANotify (ByNumber "B") Closed (PStr "");
   ASleep 10;
   ADelete "B"].
Proof. reflexivity. Qed.

(** Counterexample to C9 as stated: the second of three fetched cases
    cannot be built and [SupportCase] raises [KeyError]. Nothing is written,
    but the error is not logged, the iteration does not sleep, and the
    exception ends [case_updates]. *)
Lemma parse_failure_can_end_the_loop :
  SupportCase Sim.env (Raise KeyError) missing_key_world
    = (Raise KeyError, missing_key_world)
  /\ cycle Sim.env false (Sim.start missing_key_world)
     = ([AGetCases; ASearch], (Raise KeyError, Sim.start missing_key_world))
  /\ log_of (case_updates Sim.env 3 false (Sim.start missing_key_world))
     = [AGetCases; ASearch]
  /\ outcome_of (case_updates Sim.env 3 false (Sim.start missing_key_world))
     = Raise KeyError.
Proof. repeat split. Qed.

(** Witness of C9: the second of three fetched cases raises
    [NameError]. *)
Lemma parse_failure_defers_the_cycle_witness :
  (search_execute Sim.env
     (snd (get_firestore_cases Sim.env malformed_world))
     = (Ok ([Ok caseB] ++ Raise NameError :: [Ok caseA]), malformed_world)
   /\ all_parsed Sim.env [Ok caseB] malformed_world
      = Some ([caseB], malformed_world)
   /\ SupportCase Sim.env (Raise NameError) malformed_world
      = (Raise NameError, malformed_world)
   /\ is_NameError NameError = true)
  /\ cycle Sim.env true (Sim.start malformed_world)
     = ([AGetCases; ASearch; ALog NameError; ASleep 5],
        (Ok Continue, Sim.start malformed_world))
  /\ forall fuel,
       log_of (case_updates Sim.env (S fuel) true (Sim.start malformed_world))
         = [AGetCases; ASearch; ALog NameError; ASleep 5]
           ++ log_of (case_updates Sim.env fuel true
                        (Sim.start malformed_world))
       /\ outcome_of
            (case_updates Sim.env (S fuel) true (Sim.start malformed_world))
          = outcome_of
              (case_updates Sim.env fuel true (Sim.start malformed_world)).
Proof.
  split; [repeat split |].
  apply (parse_failure_defers_the_cycle Sim.env true
           (Sim.start malformed_world) [Ok caseB] [Ok caseA]
           (Raise NameError) NameError [caseB]
           malformed_world malformed_world malformed_world);
    reflexivity.
Defined.

(** C7, at a failing input. No tracked asset lies on the path of the new
    case A, so nobody is subscribed; [combined_new_emails] is a list of
    three empty strings, which is not empty, and the comment is posted. *)
Theorem comment_posted_without_new_emails :
  log_of (auto_cc Sim.env caseA (Sim.start new_case_world)) =
  [AGetParent "A"; AProjectGet "projects/p1";
   AAddComment "CH1" "A"
     "The following emails have been added automatically through asset subscription: , , "
     "" "Auto Asset Subscription" false]
  /\ outcome_of (auto_cc Sim.env caseA (Sim.start new_case_world)) = Ok tt.
Proof. split; reflexivity. Qed.

(** Counterexample to C8 as stated: case A belongs to an organization, its
    parent has no project segment, and resolving the hierarchy raises
    [AttributeError]. Nothing is logged by [logger.error], [auto_cc] does
    not return, and the exception ends [case_updates]. *)
Lemma hierarchy_error_ends_the_loop :
  outcome_of (resolve_hierarchy Sim.env "A" (Sim.start org_case_world))
    = Raise AttributeError
  /\ auto_cc Sim.env caseA (Sim.start org_case_world)
     = ([AGetParent "A"], (Raise AttributeError, Sim.start org_case_world))
  /\ log_of (case_updates Sim.env 3 false (Sim.start org_case_world))
     = [AGetCases; ASearch; AWrite "cases" caseA "guid-0"; AGetParent "A"]
  /\ outcome_of (case_updates Sim.env 3 false (Sim.start org_case_world))
     = Raise AttributeError.
Proof. repeat split. Qed.

(** An error of the project lookup other than [BrokenPipeError] is not
    handled either. *)
Example lookup_error_ends_the_loop :
  log_of (case_updates Sim.env 3 false (Sim.start hidden_project_world))
    = [AGetCases; ASearch; AWrite "cases" caseA "guid-0"; AGetParent "A";
       AProjectGet "projects/p9"]
  /\ outcome_of (case_updates Sim.env 3 false (Sim.start hidden_project_world))
     = Raise (OtherError "HttpError").
Proof. split; reflexivity. Qed.

(** Witness of C8: the lookup of project p1 raises [BrokenPipeError]. *)
Lemma broken_pipe_skips_auto_subscription_witness :
  (tracked_assets Sim.env broken_pipe_world = (["CH1"], broken_pipe_world)
   /\ get_parent Sim.env "A" broken_pipe_world
      = (Ok "projects/p1", broken_pipe_world)
   /\ re_search "projects/" not_slash "projects/p1" = Some "projects/p1"
   /\ projects_get Sim.env "projects/p1" broken_pipe_world
      = (Raise BrokenPipeError, broken_pipe_world))
  /\ auto_cc Sim.env caseA (Sim.start broken_pipe_world)
     = ([AGetParent "A"; AProjectGet "projects/p1"; ALog BrokenPipeError],
        (Ok tt, Sim.start broken_pipe_world)).
Proof.
  split; [repeat split |].
  apply (broken_pipe_skips_auto_subscription Sim.env caseA
           (Sim.start broken_pipe_world) ["CH1"] "projects/p1" "projects/p1"
           broken_pipe_world broken_pipe_world broken_pipe_world);
    reflexivity.
Defined.

(** After the broken pipe the loop goes on: the new case is stored, and the
    next iteration finds it among the snapshots. *)
Example broken_pipe_loop_goes_on :
  log_of (case_updates Sim.env 2 false (Sim.start broken_pipe_world)) =
  [AGetCases; ASearch; AWrite "cases" caseA "guid-0";
   AGetParent "A"; AProjectGet "projects/p1"; ALog BrokenPipeError;
   ASleep 10;
   AGetCases; ASearch; ASleep 10]
  /\ outcome_of (case_updates Sim.env 2 false (Sim.start broken_pipe_world))
     = Ok false.
Proof. split; reflexivity. Qed.

End Runs.

(** * More of the program *)

(** ** The path patterns *)

Section Paths.

Lemma prefix_rest_app (p s r : string) :
  prefix_rest p s = Some r -> s = (p ++ r)%string.
Proof.
  revert s. induction p as [| a p IH]; intros s H.
  - injection H as ->. reflexivity.
  - destruct s as [| b s]; [discriminate |]. cbn [prefix_rest] in H.
    destruct (Ascii.eqb_spec a b) as [-> |]; [| discriminate].
    cbn [append]. f_equal. apply IH. exact H.
Qed.

Lemma take_while_forall (f : ascii -> bool) (s : string) :
  string_forall f (take_while f s) = true.
Proof.
  induction s as [| c s IH]; [reflexivity |]. cbn [take_while].
  destruct (f c) eqn:E; [| reflexivity].
  cbn [string_forall]. rewrite E, IH. reflexivity.
Qed.

Lemma match_here_shape (lit : string) (cls : ascii -> bool) (s m : string) :
  match_here lit cls s = Some m ->
  exists run,
    m = (lit ++ run)%string /\ run <> EmptyString
    /\ string_forall cls run = true.
Proof.
  unfold match_here.
  destruct (prefix_rest lit s) as [rest |]; [| discriminate].
  pose proof (take_while_forall cls rest) as Hrun.
  destruct (take_while cls rest) as [| c run]; [discriminate |].
  intros [= <-]. exists (String c run).
  repeat split; [discriminate | exact Hrun].
Qed.

Lemma re_search_shape (lit : string) (cls : ascii -> bool) (s m : string) :
  re_search lit cls s = Some m ->
  exists run,
    m = (lit ++ run)%string /\ run <> EmptyString
    /\ string_forall cls run = true.
Proof.
  induction s as [| c s IH]; cbn [re_search].
  - destruct (match_here lit cls EmptyString) as [m' |] eqn:E;
      [| discriminate].
    intros [= <-]. eapply match_here_shape; exact E.
  - destruct (match_here lit cls (String c s)) as [m' |] eqn:E; [| exact IH].
    intros [= <-]. eapply match_here_shape; exact E.
Qed.

Lemma append_snoc (cur : string) (c : ascii) (s : string) :
  ((cur ++ String c EmptyString) ++ s)%string = (cur ++ String c s)%string.
Proof.
  induction cur as [| a cur IH]; [reflexivity |].
  cbn [append]. rewrite IH. reflexivity.
Qed.

Lemma split_slash_acc_free (cur s : string) :
  string_forall not_slash s = true ->
  split_slash_acc cur s = [(cur ++ s)%string].
Proof.
  revert cur. induction s as [| c s IH]; intros cur H.
  - cbn [split_slash_acc]. f_equal.
    induction cur as [| a cur IHc]; [reflexivity |].
    cbn [append]. rewrite <- IHc. reflexivity.
  - cbn [string_forall] in H. apply andb_true_iff in H. destruct H as [Hc Hs].
    cbn [split_slash_acc]. unfold not_slash in Hc.
    apply negb_true_iff in Hc. rewrite Hc.
    rewrite (IH _ Hs), append_snoc. reflexivity.
Qed.

Lemma digit_not_slash (c : ascii) : is_digit c = true -> not_slash c = true.
Proof.
  unfold not_slash. destruct (Ascii.eqb_spec c "/"%char) as [-> |];
    [discriminate | reflexivity].
Qed.

Lemma string_forall_impl (f g : ascii -> bool) (s : string) :
  (forall c, f c = true -> g c = true) ->
  string_forall f s = true -> string_forall g s = true.
Proof.
  intro Hfg. induction s as [| c s IH]; [reflexivity |].
  cbn [string_forall]. intro H. apply andb_true_iff in H.
  destruct H as [Hc Hs]. rewrite (Hfg _ Hc), (IH Hs). reflexivity.
Qed.

Lemma project_match_shape (parent m : string) :
  re_search "projects/" not_slash parent = Some m ->
  exists id,
    m = ("projects/" ++ id)%string /\ id <> EmptyString
    /\ string_forall not_slash id = true
    /\ split_slash m = ["projects"; id].
Proof.
  intro H. destruct (re_search_shape _ _ _ _ H) as (id & -> & Hne & Hid).
  exists id. repeat split; try assumption.
  unfold split_slash. cbn. rewrite (split_slash_acc_free _ _ Hid).
  reflexivity.
Qed.

Lemma organization_match_shape (parent m : string) :
  re_search "organizations/" is_digit parent = Some m ->
  exists id,
    m = ("organizations/" ++ id)%string /\ id <> EmptyString
    /\ string_forall is_digit id = true
    /\ split_slash m = ["organizations"; id].
Proof.
  intro H. destruct (re_search_shape _ _ _ _ H) as (id & -> & Hne & Hid).
  exists id. repeat split; try assumption.
  unfold split_slash. cbn.
  rewrite (split_slash_acc_free _ _
             (string_forall_impl _ _ _ digit_not_slash Hid)).
  reflexivity.
Qed.

(** X1. A match of [projects\/[^\/]+] is "projects/" followed by a
    non-empty identifier without a slash, so [split("/")] cuts it into
    exactly two parts and [[1]] is that identifier; the same holds for a
    match of [organizations\/\d+], whose identifier is made of digits. The
    two [split("/")[1]] of [auto_cc] therefore never raise. *)
Theorem matched_path_splits_in_two :
  (forall parent m,
      re_search "projects/" not_slash parent = Some m ->
      exists id,
        m = ("projects/" ++ id)%string /\ id <> EmptyString
        /\ string_forall not_slash id = true
        /\ nth_error (split_slash m) 1 = Some id
        /\ List.length (split_slash m) = 2)
  /\ (forall parent m,
         re_search "organizations/" is_digit parent = Some m ->
         exists id,
           m = ("organizations/" ++ id)%string /\ id <> EmptyString
           /\ string_forall is_digit id = true
           /\ nth_error (split_slash m) 1 = Some id
           /\ List.length (split_slash m) = 2).
Proof.
  split; intros parent m H.
  - destruct (project_match_shape _ _ H) as (id & Hm & Hne & Hid & Hsplit).
    exists id. rewrite Hsplit. auto.
  - destruct (organization_match_shape _ _ H)
      as (id & Hm & Hne & Hid & Hsplit).
    exists id. rewrite Hsplit. auto.
Qed.

End Paths.

(** ** Resolving the hierarchy *)

Section Hierarchy.

Context {W raw : Type} (env : Env W raw).

(** X2. When the parent of the case names a project and the project lookup
    returns a project with a parent, the first half of [auto_cc] logs the
    two lookups and returns: the project identifier without its
    "projects/" prefix, the folder matches of the project's parent, and the
    digits of its organization match, or [None] when the parent names no
    organization. *)
Theorem resolve_hierarchy_succeeds (case_num : string) (s : locals W)
  (parent m above : string) (w1 w2 : W) :
  get_parent env case_num (world s) = (Ok parent, w1) ->
  re_search "projects/" not_slash parent = Some m ->
  projects_get env m w1 = (Ok (mkProject (Some above)), w2) ->
  exists id org,
    m = ("projects/" ++ id)%string
    /\ resolve_hierarchy env case_num s
       = ([AGetParent case_num; AProjectGet m],
          (Ok (Some (mkHierarchy org
                       (re_findall "folders/" not_slash above) id)),
           mkLocals w2 (guid s) (first_doc_in s)))
    /\ (org = None
        /\ re_search "organizations/" is_digit above = None
        \/ exists digits,
             org = Some digits
             /\ re_search "organizations/" is_digit above
                = Some ("organizations/" ++ digits)%string).
Proof.
  intros Hparent Hsearch Hproject.
  destruct (project_match_shape _ _ Hsearch) as (id & Hm & _ & _ & Hsplit).
  unfold resolve_hierarchy. unfold bind at 1. unfold attempt at 1.
  unfold call at 1. rewrite Hparent.
  unfold bind at 1. cbn [reraise]. unfold ret at 1. rewrite Hsearch.
  unfold bind at 1. unfold attempt at 1. unfold call at 1. cbn [world].
  rewrite Hproject. cbn [project_parent].
  unfold bind at 1. unfold second_segment at 1. rewrite Hsplit.
  cbn [nth_error]. unfold ret at 1.
  destruct (re_search "organizations/" is_digit above) as [o |]
    eqn:Horg.
  - destruct (organization_match_shape _ _ Horg)
      as (digits & Ho & _ & _ & Hosplit).
    exists id, (Some digits). split; [exact Hm |]. split.
    + unfold bind, second_segment. rewrite Hosplit. reflexivity.
    + right. exists digits. rewrite Ho. auto.
  - exists id, None. split; [exact Hm |]. split; [reflexivity | left; auto].
Qed.

(** X3. When the parent of the case contains no [projects/...] segment,
    [auto_cc] raises [AttributeError] right after the parent lookup: no
    project lookup, no log entry, no subscription and no comment. *)
Theorem parent_without_project_raises (c : case) (s : locals W)
  (channels : list string) (parent : string) (w1 w2 : W) :
  tracked_assets env (world s) = (channels, w1) ->
  get_parent env (case_number c) w1 = (Ok parent, w2) ->
  re_search "projects/" not_slash parent = None ->
  auto_cc env c s
    = ([AGetParent (case_number c)],
       (Raise AttributeError, mkLocals w2 (guid s) (first_doc_in s))).
Proof.
  intros Hchannels Hparent Hsearch.
  unfold auto_cc. unfold bind at 1. unfold call at 1. rewrite Hchannels.
  unfold bind at 1. unfold resolve_hierarchy. unfold bind at 1.
  unfold attempt at 1. unfold call at 1. cbn [world]. rewrite Hparent.
  unfold bind at 1. cbn [reraise]. unfold ret at 1. rewrite Hsearch.
  reflexivity.
Qed.

(** X4. When the project the lookup returns has no ["parent"] key,
    [auto_cc] raises [KeyError] after the two lookups, without subscribing
    anyone or commenting. *)
Theorem project_without_parent_raises (c : case) (s : locals W)
  (channels : list string) (parent m : string) (w1 w2 w3 : W) :
  tracked_assets env (world s) = (channels, w1) ->
  get_parent env (case_number c) w1 = (Ok parent, w2) ->
  re_search "projects/" not_slash parent = Some m ->
  projects_get env m w2 = (Ok (mkProject None), w3) ->
  auto_cc env c s
    = ([AGetParent (case_number c); AProjectGet m],
       (Raise KeyError, mkLocals w3 (guid s) (first_doc_in s))).
Proof.
  intros Hchannels Hparent Hsearch Hproject.
  unfold auto_cc. unfold bind at 1. unfold call at 1. rewrite Hchannels.
  unfold bind at 1. unfold resolve_hierarchy. unfold bind at 1.
  unfold attempt at 1. unfold call at 1. cbn [world]. rewrite Hparent.
  unfold bind at 1. cbn [reraise]. unfold ret at 1. rewrite Hsearch.
  unfold bind at 1. unfold attempt at 1. unfold call at 1. cbn [world].
  rewrite Hproject. reflexivity.
Qed.

End Hierarchy.

(** ** Tracked assets *)

Section Tracking.

Context {W raw : Type} (env : Env W raw).

Lemma tracking_scan_no_match (asset : option string) (case_num : string)
  (items : list asset_item) (s : locals W) :
  (forall item, In item items -> Some (asset_id item) <> asset) ->
  tracking_scan env asset case_num items s = ([], (Ok [], s)).
Proof.
  induction items as [| item rest IH]; intro Hno; [reflexivity |].
  cbn [tracking_scan]. destruct asset as [a |].
  - destruct (string_dec (asset_id item) a) as [E |].
    + exfalso. apply (Hno item); [left; reflexivity | rewrite E; reflexivity].
    + apply IH. intros i Hi. apply Hno. right. exact Hi.
  - apply IH. intros i Hi. apply Hno. right. exact Hi.
Qed.

Lemma tracking_scan_first_match (a case_num : string)
  (before after : list asset_item) (item : asset_item) (s : locals W) :
  (forall i, In i before -> asset_id i <> a) ->
  asset_id item = a ->
  tracking_scan env (Some a) case_num (before ++ item :: after) s
  = call (support_subscribe_email env (channel_id item) case_num
            (cc_list item) (user_id item))
         (fun new_emails =>
            [ASubscribe (channel_id item) case_num (cc_list item)
               (user_id item) new_emails]) s.
Proof.
  intros Hbefore Hitem. induction before as [| i rest IH].
  - cbn [app tracking_scan].
    destruct (string_dec (asset_id item) a); [reflexivity | contradiction].
  - cbn [app tracking_scan].
    destruct (string_dec (asset_id i) a) as [E |].
    + exfalso. apply (Hbefore i); [left; reflexivity | exact E].
    + apply IH. intros j Hj. apply Hbefore. right. exact Hj.
Qed.

Lemma tracking_check_no_match (channel asset_type : string)
  (asset : option string) (case_num : string) (items : list asset_item)
  (s : locals W) (w1 : W) :
  asset_collection env channel asset_type (world s) = (items, w1) ->
  (forall item, In item items -> Some (asset_id item) <> asset) ->
  tracking_check env channel asset_type asset case_num s
  = ([], (Ok [], mkLocals w1 (guid s) (first_doc_in s))).
Proof.
  intros Hitems Hno. unfold tracking_check, bind, call. rewrite Hitems.
  rewrite (tracking_scan_no_match _ _ _ _ Hno). reflexivity.
Qed.

(** X5. [tracking_check] subscribes the watchers of the first document
    whose asset id matches, and of that one only: documents before it do
    not match, documents after it are not looked at, even when they carry
    the same asset id. It returns what that one subscription returned. *)
Theorem tracking_check_uses_first_match (channel asset_type a : string)
  (case_num : string) (before after : list asset_item) (item : asset_item)
  (new_emails : list string) (s : locals W) (w1 w2 : W) :
  asset_collection env channel asset_type (world s)
    = (before ++ item :: after, w1) ->
  (forall i, In i before -> asset_id i <> a) ->
  asset_id item = a ->
  support_subscribe_email env (channel_id item) case_num (cc_list item)
    (user_id item) w1 = (new_emails, w2) ->
  tracking_check env channel asset_type (Some a) case_num s
  = ([ASubscribe (channel_id item) case_num (cc_list item) (user_id item)
        new_emails],
     (Ok new_emails, mkLocals w2 (guid s) (first_doc_in s))).
Proof.
  intros Hitems Hbefore Hitem Hsub.
  unfold tracking_check. unfold bind, call at 1. rewrite Hitems.
  rewrite (tracking_scan_first_match _ _ _ _ _ _ Hbefore Hitem).
  unfold call. cbn [world]. rewrite Hsub. reflexivity.
Qed.

(** X6. A folder of the project's ancestry for which the channel tracks no
    asset makes the folder loop raise [IndexError]: [tracking_check]
    returns the empty list and the loop takes its element [0]. Nothing has
    been subscribed or logged for that folder. *)
Theorem untracked_folder_raises (channel case_num folder : string)
  (rest folder_new_emails : list string) (items : list asset_item)
  (s : locals W) (w1 : W) :
  asset_collection env channel "folders" (world s) = (items, w1) ->
  (forall item, In item items -> asset_id item <> folder) ->
  folder_loop env channel case_num (folder :: rest) folder_new_emails s
  = ([], (Raise IndexError, mkLocals w1 (guid s) (first_doc_in s))).
Proof.
  intros Hitems Hno. cbn [folder_loop]. unfold bind.
  rewrite (tracking_check_no_match _ _ _ _ _ _ _ Hitems).
  - reflexivity.
  - intros item Hin [= E]. exact (Hno item Hin E).
Qed.

(** X7. For a tracked folder the loop keeps the first new address only and
    appends it character by character: after a folder whose first matching
    document subscribed [first :: others], [folder_new_emails] has grown by
    the one-character strings of [first]. *)
Theorem folder_emails_are_characters (channel case_num folder : string)
  (folder_new_emails : list string) (before after : list asset_item)
  (item : asset_item) (first : string) (others : list string)
  (s : locals W) (w1 w2 : W) :
  asset_collection env channel "folders" (world s)
    = (before ++ item :: after, w1) ->
  (forall i, In i before -> asset_id i <> folder) ->
  asset_id item = folder ->
  support_subscribe_email env (channel_id item) case_num (cc_list item)
    (user_id item) w1 = (first :: others, w2) ->
  folder_loop env channel case_num [folder] folder_new_emails s
  = ([ASubscribe (channel_id item) case_num (cc_list item) (user_id item)
        (first :: others)],
     (Ok (folder_new_emails ++ chars first),
      mkLocals w2 (guid s) (first_doc_in s))).
Proof.
  intros Hitems Hbefore Hitem Hsub. cbn [folder_loop].
  unfold bind at 1. unfold tracking_check. unfold bind, call at 1.
  rewrite Hitems.
  rewrite (tracking_scan_first_match _ _ _ _ _ _ Hbefore Hitem).
  unfold call. cbn [world]. rewrite Hsub. reflexivity.
Qed.

End Tracking.

(** ** The comment on the case *)

Section CaseComment.

Context {W raw : Type} (env : Env W raw).

Lemma tracking_scan_subscribes asset case_num items :
  emits subscribe_action (tracking_scan env asset case_num items).
Proof.
  induction items as [| item rest IH]; cbn [tracking_scan];
    [apply emits_ret |].
  destruct asset as [a |]; [| exact IH].
  destruct (string_dec (asset_id item) a); [| exact IH].
  emits_auto.
Qed.

Lemma tracking_check_subscribes channel asset_type asset case_num :
  emits subscribe_action
    (tracking_check env channel asset_type asset case_num).
Proof.
  unfold tracking_check. apply emits_bind; [emits_auto |].
  intro items. apply tracking_scan_subscribes.
Qed.

Lemma folder_loop_subscribes channel case_num folders acc :
  emits subscribe_action (folder_loop env channel case_num folders acc).
Proof.
  revert acc. induction folders as [| folder rest IH]; intro acc;
    cbn [folder_loop]; [apply emits_ret |].
  apply emits_bind; [apply tracking_check_subscribes |].
  intros [| first others]; [apply emits_raise | apply IH].
Qed.

Lemma commented_channels_app (l1 l2 : list action) :
  commented_channels (l1 ++ l2)
  = commented_channels l1 ++ commented_channels l2.
Proof.
  induction l1 as [| a l1 IH]; [reflexivity |].
  destruct a; cbn [app commented_channels]; rewrite IH; reflexivity.
Qed.

Lemma subscriptions_do_not_comment (l : list action) :
  Forall subscribe_action l -> commented_channels l = [].
Proof.
  induction 1 as [| a l Ha _ IH]; [reflexivity |].
  destruct a; cbn [commented_channels]; try exact IH; destruct Ha.
Qed.

Lemma channel_step_comments_once (case_num : string)
  (org_id : option string) (folders : list string)
  (project_id channel : string) (s : locals W) :
  outcome_of (channel_step env case_num org_id folders project_id channel s)
    = Ok tt ->
  commented_channels
    (log_of (channel_step env case_num org_id folders project_id channel s))
  = [channel].
Proof.
  destruct (channel_step env case_num org_id folders project_id channel s)
    as [l [o s']] eqn:Hrun.
  unfold outcome_of, log_of. cbn [fst snd]. intros ->.
  unfold channel_step in Hrun.
  apply bind_inv in Hrun.
  destruct Hrun as [(l1 & org_new & s1 & l2 & H1 & Hrun & ->) | (e & _ & [=])].
  apply bind_inv in Hrun.
  destruct Hrun as [(l3 & folder_new & s2 & l4 & H3 & Hrun & ->)
                   | (e & _ & [=])].
  apply bind_inv in Hrun.
  destruct Hrun as [(l5 & project_new & s3 & l6 & H5 & Hrun & ->)
                   | (e & _ & [=])].
  cbv beta iota zeta in Hrun. unfold exec in Hrun.
  injection Hrun as <- _.
  pose proof (tracking_check_subscribes channel "organizations" org_id
                case_num s) as E1.
  pose proof (folder_loop_subscribes channel case_num folders [] s1) as E3.
  pose proof (tracking_check_subscribes channel "projects" (Some project_id)
                case_num s2) as E5.
  unfold log_of in E1, E3, E5. rewrite H1 in E1. rewrite H3 in E3.
  rewrite H5 in E5. cbn [fst] in E1, E3, E5.
  rewrite !commented_channels_app.
  rewrite (subscriptions_do_not_comment _ E1).
  rewrite (subscriptions_do_not_comment _ E3).
  rewrite (subscriptions_do_not_comment _ E5).
  reflexivity.
Qed.

(** X8. When the channel loop of [auto_cc] returns, it has posted exactly
    one comment on the case for every tracked channel, in the order of the
    channels, whether or not any address was subscribed for that channel. *)
Theorem one_comment_per_channel (case_num : string) (org_id : option string)
  (folders : list string) (project_id : string) (channels : list string)
  (s : locals W) :
  outcome_of
    (channel_loop env case_num org_id folders project_id channels s)
    = Ok tt ->
  commented_channels
    (log_of (channel_loop env case_num org_id folders project_id channels s))
  = channels.
Proof.
  revert s. induction channels as [| channel rest IH]; intros s Hok;
    [reflexivity |].
  destruct (channel_loop env case_num org_id folders project_id
              (channel :: rest) s) as [l [o s']] eqn:Hrun.
  unfold outcome_of, log_of in *. cbn [fst snd] in *. subst o.
  cbn [channel_loop] in Hrun. apply bind_inv in Hrun.
  destruct Hrun as [(l1 & [] & s1 & l2 & H1 & Hrun & ->) | (e & _ & [=])].
  rewrite commented_channels_app.
  pose proof (channel_step_comments_once case_num org_id folders project_id
                channel s) as Hstep.
  unfold outcome_of, log_of in Hstep. rewrite H1 in Hstep.
  cbn [fst snd] in Hstep. rewrite (Hstep eq_refl).
  specialize (IH s1). unfold outcome_of, log_of in IH. rewrite Hrun in IH.
  cbn [fst snd] in IH. rewrite (IH eq_refl). reflexivity.
Qed.

End CaseComment.

(** ** Fetching and parsing *)

Section Fetching.

Context {W raw : Type} (env : Env W raw).

(** X9. When the search of the open cases raises [BrokenPipeError], the
    iteration logs the error, sleeps 5 seconds and ends: nothing is parsed,
    written, deleted or notified. The loop then runs its next iteration,
    in test mode too. *)
Theorem fetch_failure_defers_the_cycle (is_test : bool) (s : locals W)
  (w2 : W) :
  search_execute env (snd (get_firestore_cases env (world s)))
    = (Raise BrokenPipeError, w2) ->
  let s' := mkLocals (sleep env 5 w2) (guid s) (first_doc_in s) in
  cycle env is_test s
    = ([AGetCases; ASearch; ALog BrokenPipeError; ASleep 5],
       (Ok Continue, s'))
  /\ forall fuel,
       log_of (case_updates env (S fuel) is_test s)
         = [AGetCases; ASearch; ALog BrokenPipeError; ASleep 5]
           ++ log_of (case_updates env fuel is_test s')
       /\ outcome_of (case_updates env (S fuel) is_test s)
          = outcome_of (case_updates env fuel is_test s').
Proof.
  intros Hsearch s'.
  assert (Hcycle : cycle env is_test s
            = ([AGetCases; ASearch; ALog BrokenPipeError; ASleep 5],
               (Ok Continue, s'))).
  { unfold cycle. unfold bind at 1. unfold call at 1.
    destruct (get_firestore_cases env (world s)) as [cases w1].
    cbn [snd] in Hsearch.
    unfold bind at 1. unfold attempt at 1. unfold call at 1. cbn [world].
    rewrite Hsearch. reflexivity. }
  split; [exact Hcycle |].
  intro fuel.
  assert (Hloop : case_updates env (S fuel) is_test s
            = ([AGetCases; ASearch; ALog BrokenPipeError; ASleep 5]
               ++ fst (case_updates env fuel is_test s'),
               snd (case_updates env fuel is_test s'))).
  { cbn [case_updates]. unfold bind at 1. rewrite Hcycle.
    destruct (case_updates env fuel is_test s') as [l os]. reflexivity. }
  rewrite Hloop. split; reflexivity.
Qed.

Lemma all_parsed_length (resp : list raw) (w w' : W) (parsed : list case) :
  all_parsed env resp w = Some (parsed, w') ->
  List.length parsed = List.length resp.
Proof.
  revert w parsed. induction resp as [| c rest IH]; intros w parsed H.
  - injection H as <- _. reflexivity.
  - cbn [all_parsed] in H.
    destruct (SupportCase env c w) as [[temp_case | e] w1]; [| discriminate].
    destruct (all_parsed env rest w1) as [[l w2] |] eqn:Hrest;
      [| discriminate].
    injection H as <- <-. cbn [List.length]. f_equal. eapply IH. exact Hrest.
Qed.

(** X10. When [SupportCase] builds every fetched case, the parsing loop
    logs nothing and leaves in [temp_cases] one record per fetched case, in
    the order of the payload, after what [temp_cases] already held. *)
Theorem parse_keeps_the_order (resp : list raw) (temp_cases parsed : list case)
  (s : locals W) (w : W) :
  all_parsed env resp (world s) = Some (parsed, w) ->
  parse_loop env resp temp_cases s
    = ([], (Ok (Some (temp_cases ++ parsed)),
            mkLocals w (guid s) (first_doc_in s)))
  /\ List.length parsed = List.length resp.
Proof.
  intro H. split; [| eapply all_parsed_length; exact H].
  revert temp_cases parsed s H.
  induction resp as [| c rest IH]; intros temp_cases parsed s H.
  - injection H as <- <-. cbn [parse_loop]. rewrite app_nil_r.
    destruct s. reflexivity.
  - cbn [all_parsed] in H. cbn [parse_loop]. unfold bind at 1.
    unfold call at 1.
    destruct (SupportCase env c (world s)) as [[temp_case | e] w1];
      [| discriminate].
    destruct (all_parsed env rest w1) as [[l w2] |] eqn:Hrest;
      [| discriminate].
    injection H as <- <-.
    rewrite (IH (temp_cases ++ [temp_case]) l
               (mkLocals w1 (guid s) (first_doc_in s)) Hrest).
    cbn [app guid first_doc_in]. rewrite <- app_assoc. reflexivity.
Qed.

Lemma parse_loop_raises (before after : list raw) (bad : raw) (e : exn)
  (w3 w4 : W) :
  SupportCase env bad w3 = (Raise e, w4) ->
  is_NameError e = false ->
  forall (parsed temp_cases : list case) (s : locals W),
    all_parsed env before (world s) = Some (parsed, w3) ->
    parse_loop env (before ++ bad :: after) temp_cases s =
    ([], (Raise e, mkLocals w4 (guid s) (first_doc_in s))).
Proof.
  intros Hbad He. induction before as [| c rest IH];
    intros parsed temp_cases s Hpre.
  - injection Hpre as <- <-.
    cbn [app parse_loop]. unfold bind, call. rewrite Hbad, He. reflexivity.
  - cbn [all_parsed] in Hpre. cbn [app parse_loop]. unfold bind at 1.
    unfold call at 1.
    destruct (SupportCase env c (world s)) as [[temp_case | e'] w'];
      [| discriminate].
    destruct (all_parsed env rest w') as [[l w''] |] eqn:Hrest;
      [| discriminate].
    injection Hpre as <- <-.
    rewrite (IH l (temp_cases ++ [temp_case])
               (mkLocals w' (guid s) (first_doc_in s)) Hrest).
    reflexivity.
Qed.

(** X11. An exception of [SupportCase] that is not a [NameError] is not
    caught by the parsing loop: the iteration raises it before any store
    write, without logging it and without sleeping, and [case_updates] ends
    with that exception. *)
Theorem unhandled_parse_error_ends_the_loop (is_test : bool) (s : locals W)
  (before after : list raw) (bad : raw) (e : exn) (parsed : list case)
  (w2 w3 w4 : W) :
  search_execute env (snd (get_firestore_cases env (world s)))
    = (Ok (before ++ bad :: after), w2) ->
  all_parsed env before w2 = Some (parsed, w3) ->
  SupportCase env bad w3 = (Raise e, w4) ->
  is_NameError e = false ->
  cycle env is_test s
    = ([AGetCases; ASearch],
       (Raise e, mkLocals w4 (guid s) (first_doc_in s)))
  /\ forall fuel,
       case_updates env (S fuel) is_test s
       = ([AGetCases; ASearch],
          (Raise e, mkLocals w4 (guid s) (first_doc_in s))).
Proof.
  intros Hsearch Hpre Hbad He.
  assert (Hcycle : cycle env is_test s
            = ([AGetCases; ASearch],
               (Raise e, mkLocals w4 (guid s) (first_doc_in s)))).
  { unfold cycle. unfold bind at 1. unfold call at 1.
    destruct (get_firestore_cases env (world s)) as [cases w1].
    cbn [snd] in Hsearch.
    unfold bind at 1. unfold attempt at 1. unfold call at 1. cbn [world].
    rewrite Hsearch. unfold bind at 1.
    rewrite (parse_loop_raises before after bad e w3 w4 Hbad He parsed []
               (mkLocals w2 _ _) Hpre).
    reflexivity. }
  split; [exact Hcycle |].
  intro fuel. cbn [case_updates]. unfold bind. rewrite Hcycle. reflexivity.
Qed.

End Fetching.

(** ** More on closure detection *)

Section ClosureMarks.

Context {W raw : Type} (env : Env W raw).

Lemma delete_entry_iff (temp_cases : list case) (fs_case : case) :
  delete_entry temp_cases fs_case = true
  <-> update_time fs_case <> SENTINEL
      /\ forall t_case,
           In t_case temp_cases ->
           case_number t_case <> case_number fs_case.
Proof.
  split.
  - intro H. split;
      [eapply delete_entry_unmarked | eapply delete_entry_absent]; exact H.
  - intros [Hut Habsent]. unfold delete_entry, in_live.
    destruct (string_dec (update_time fs_case) SENTINEL); [contradiction |].
    apply negb_true_iff.
    destruct (existsb _ temp_cases) eqn:E; [| reflexivity].
    apply existsb_exists in E. destruct E as (t & Hin & Ht).
    destruct (string_dec (case_number t) (case_number fs_case)) as [E |];
      [| discriminate].
    destruct (Habsent t Hin E).
Qed.

Lemma closure_run_marking temp_cases cases l cases' closed :
  closure_run temp_cases cases l cases' closed ->
  cases' = map (mark_absent temp_cases) cases
  /\ writes l
     = map (fun fs_case => set_update_time fs_case SENTINEL)
         (filter (delete_entry temp_cases) cases)
  /\ forall c,
       In c closed ->
       exists fs_case,
         In fs_case cases /\ case_number fs_case = c
         /\ delete_entry temp_cases fs_case = true.
Proof.
  induction 1 as
    [| fs_case rest l rest' closed Hdel Hrun IH
     | fs_case g doc rest l rest' closed Hdel Hg Hrun IH
     | fs_case g d rest l rest' closed Hdel Hg Hrun IH];
    [repeat split; intros c []
    | destruct IH as (Hcases & Hwrites & Hclosed)
    | destruct IH as (Hcases & Hwrites & Hclosed)
    | destruct IH as (Hcases & Hwrites & Hclosed)];
    cbn [map filter writes]; unfold mark_absent at 1; rewrite Hdel.
  - repeat split; [congruence | exact Hwrites |].
    intros c Hc. destruct (Hclosed c Hc) as (fs & Hin & E & Hd).
    exists fs. simpl. auto.
  - repeat split; [congruence | cbn [map]; congruence |].
    intros c [<- | Hc].
    + exists fs_case. simpl. auto.
    + destruct (Hclosed c Hc) as (fs & Hin & E & Hd). exists fs. simpl. auto.
  - repeat split; [congruence | cbn [map]; congruence |].
    intros c Hc. destruct (Hclosed c Hc) as (fs & Hin & E & Hd).
    exists fs. simpl. auto.
Qed.

(** X12. The closure loop never raises, whatever the store answers. It
    writes exactly the stored snapshots that do not yet carry the sentinel
    and whose case number is not among the fetched cases, each once, in
    their order and with the sentinel as update time; it leaves the other
    snapshots of [cases] as they are; and every case it queues for deletion
    is one of those it has just marked. *)
Theorem closure_marks_absent_snapshots (temp_cases cases : list case)
  (s : locals W) :
  exists closed,
    outcome_of (closure_loop env temp_cases cases s)
      = Ok (map (mark_absent temp_cases) cases, closed)
    /\ writes (log_of (closure_loop env temp_cases cases s))
       = map (fun fs_case => set_update_time fs_case SENTINEL)
           (filter (delete_entry temp_cases) cases)
    /\ (forall c,
          In c closed ->
          exists fs_case,
            In fs_case cases /\ case_number fs_case = c
            /\ update_time fs_case <> SENTINEL
            /\ forall t_case,
                 In t_case temp_cases -> case_number t_case <> c)
    /\ (forall fs_case,
          delete_entry temp_cases fs_case = true
          <-> update_time fs_case <> SENTINEL
              /\ forall t_case,
                   In t_case temp_cases ->
                   case_number t_case <> case_number fs_case).
Proof.
  destruct (closure_loop_run env temp_cases cases s)
    as (l & cases' & closed & s' & Hrun & Hrel).
  destruct (closure_run_marking _ _ _ _ _ Hrel) as (Hcases & Hwrites & Hq).
  exists closed. rewrite Hrun. unfold outcome_of, log_of. cbn [fst snd].
  split; [rewrite Hcases; reflexivity |]. split; [exact Hwrites |].
  split; [| apply delete_entry_iff].
  intros c Hc. destruct (Hq c Hc) as (fs & Hin & E & Hd).
  apply delete_entry_iff in Hd. destruct Hd as [Hut Habsent].
  exists fs. rewrite <- E. auto.
Qed.

Lemma delete_entry_mark_absent (temp_cases : list case) (fs_case : case) :
  delete_entry temp_cases (mark_absent temp_cases fs_case) = false.
Proof.
  unfold mark_absent. destruct (delete_entry temp_cases fs_case) eqn:E;
    [| exact E].
  unfold delete_entry. cbn [update_time set_update_time].
  destruct (string_dec SENTINEL SENTINEL); [reflexivity | contradiction].
Qed.

Lemma closure_loop_quiet (temp_cases cases : list case) (s : locals W) :
  (forall fs_case, In fs_case cases ->
                   delete_entry temp_cases fs_case = false) ->
  closure_loop env temp_cases cases s = ([], (Ok (cases, []), s)).
Proof.
  induction cases as [| fs_case rest IH]; intro Hquiet; [reflexivity |].
  cbn [closure_loop]. unfold bind at 1. unfold close_step.
  rewrite (Hquiet fs_case (or_introl eq_refl)). unfold ret at 1.
  unfold bind at 1. rewrite IH; [reflexivity |].
  intros fs Hin. apply Hquiet. right. exact Hin.
Qed.

(** X13. Closure detection is idempotent on the snapshots it returns: run
    again on the list the loop has left in [cases], against the same
    fetched cases, it writes nothing, notifies nothing, queues nothing and
    changes neither the snapshots nor the local variables. *)
Theorem closure_is_idempotent (temp_cases cases : list case)
  (s : locals W) :
  closure_loop env temp_cases (map (mark_absent temp_cases) cases) s
  = ([], (Ok (map (mark_absent temp_cases) cases, []), s)).
Proof.
  apply closure_loop_quiet. intros fs Hin. apply in_map_iff in Hin.
  destruct Hin as (fs0 & <- & _). apply delete_entry_mark_absent.
Qed.

End ClosureMarks.

(** ** More on update detection *)

Section UpdateEdges.

Context {W raw : Type} (env : Env W raw).

Lemma match_loop_new (t_case : case) (cases : list case) (is_new : bool)
  (s : locals W) :
  (forall fs_case,
      In fs_case cases -> case_number t_case <> case_number fs_case) ->
  match_loop env t_case cases is_new s = ([], (Ok is_new, s)).
Proof.
  induction cases as [| fs_case rest IH]; intro Hnew; [reflexivity |].
  cbn [match_loop].
  destruct (string_dec (case_number t_case) (case_number fs_case)) as [E |].
  - destruct (Hnew fs_case (or_introl eq_refl) E).
  - apply IH. intros fs Hin. apply Hnew. right. exact Hin.
Qed.

Lemma writes_app (l1 l2 : list action) :
  writes (l1 ++ l2) = writes l1 ++ writes l2.
Proof.
  induction l1 as [| a l1 IH]; [reflexivity |].
  destruct a; cbn [app writes]; rewrite IH; reflexivity.
Qed.

Lemma subscriptions_do_not_write (l : list action) :
  Forall subscription_action l -> writes l = [].
Proof.
  induction 1 as [| a l Ha _ IH]; [reflexivity |].
  destruct a; cbn [writes]; try exact IH; destruct Ha.
Qed.

Lemma subscriptions_do_not_notify (l : list action) :
  Forall subscription_action l -> Forall (fun a => ~ is_notification a) l.
Proof.
  intro H. eapply Forall_impl; [| exact H].
  intros a Ha (subj & k & p & ->). destruct Ha.
Qed.

(** X14. A fetched case whose number has no snapshot is written to the
    store once, without any first-writer lookup and without changing
    [guid] or [first_doc_in], and is handed to [auto_cc]; no notification
    is sent for it, and the step ends as [auto_cc] ends. *)
Theorem new_case_is_written_once (cases : list case) (t_case : case)
  (s : locals W) :
  (forall fs_case,
      In fs_case cases -> case_number t_case <> case_number fs_case) ->
  let g := fst (firestore_write env "cases" t_case (world s)) in
  let s1 :=
    mkLocals (snd (firestore_write env "cases" t_case (world s))) (guid s)
      (first_doc_in s) in
  update_case env cases t_case s
    = (AWrite "cases" t_case g :: log_of (auto_cc env t_case s1),
       snd (auto_cc env t_case s1))
  /\ writes (log_of (update_case env cases t_case s)) = [t_case]
  /\ Forall (fun a => ~ is_notification a)
       (log_of (update_case env cases t_case s)).
Proof.
  intros Hnew g s1.
  assert (Hrun : update_case env cases t_case s
            = (AWrite "cases" t_case g :: log_of (auto_cc env t_case s1),
               snd (auto_cc env t_case s1))).
  { unfold update_case. unfold bind at 1.
    rewrite (match_loop_new _ _ _ _ Hnew). unfold bind at 1.
    unfold call at 1. subst g s1.
    destruct (firestore_write env "cases" t_case (world s)) as [g w].
    cbn [fst snd]. unfold log_of.
    destruct (auto_cc env t_case (mkLocals w (guid s) (first_doc_in s)))
      as [l os].
    reflexivity. }
  pose proof (auto_cc_log env t_case s1) as Hlog.
  rewrite Hrun. unfold log_of at 1 3. cbn [fst].
  split; [reflexivity |]. split.
  - cbn [writes]. rewrite (subscriptions_do_not_write _ Hlog). reflexivity.
  - constructor; [| apply subscriptions_do_not_notify; exact Hlog].
    intros (subj & k & p & [=]).
Qed.

Lemma update_pair_same (t_case fs_case : case) (s : locals W) :
  same_fields t_case fs_case ->
  update_pair env t_case fs_case s = ([], (Ok tt, s)).
Proof.
  intros (Htime & Hcomments & Hpriority & Hescalated).
  unfold update_pair, refresh_first_writer, comment_check, priority_check,
    escalation_check.
  destruct (string_dec (update_time t_case) (update_time fs_case));
    [| contradiction].
  destruct (comments_eq_dec (comment_list fs_case) (comment_list t_case));
    [| contradiction].
  destruct (string_dec (priority fs_case) (priority t_case));
    [| contradiction].
  destruct (Bool.bool_dec (escalated fs_case) (escalated t_case));
    [| contradiction].
  reflexivity.
Qed.

Lemma match_loop_same (t_case : case) (cases : list case) (s : locals W) :
  (forall fs_case,
      In fs_case cases -> case_number t_case = case_number fs_case ->
      same_fields t_case fs_case) ->
  forall is_new,
    match_loop env t_case cases is_new s
    = ([], (Ok (is_new && negb (in_live cases t_case)), s)).
Proof.
  induction cases as [| fs_case rest IH]; intros Hsame is_new.
  - cbn. rewrite andb_true_r. reflexivity.
  - cbn [match_loop]. unfold in_live. cbn [existsb].
    destruct (string_dec (case_number t_case) (case_number fs_case))
      as [E | N].
    + unfold bind.
      rewrite (update_pair_same _ _ _ (Hsame fs_case (or_introl eq_refl) E)).
      rewrite IH; [| intros fs Hin; apply Hsame; right; exact Hin].
      destruct (string_dec (case_number fs_case) (case_number t_case));
        [| congruence].
      cbn. rewrite andb_false_r. reflexivity.
    + rewrite IH; [| intros fs Hin; apply Hsame; right; exact Hin].
      destruct (string_dec (case_number fs_case) (case_number t_case));
        [congruence |].
      reflexivity.
Qed.

(** X15. A fetched case that has a snapshot, and whose update time, comment
    list, priority and escalation flag equal those of every snapshot of its
    number, goes through update detection without any call to the store, to
    Slack or to [auto_cc], and without touching the local variables. *)
Theorem unchanged_case_is_silent (cases : list case) (t_case : case)
  (s : locals W) :
  (exists fs_case,
      In fs_case cases /\ case_number t_case = case_number fs_case) ->
  (forall fs_case,
      In fs_case cases -> case_number t_case = case_number fs_case ->
      same_fields t_case fs_case) ->
  update_case env cases t_case s = ([], (Ok tt, s)).
Proof.
  intros (fs & Hin & E) Hsame. unfold update_case. unfold bind.
  rewrite (match_loop_same _ _ _ Hsame).
  assert (Hlive : in_live cases t_case = true).
  { unfold in_live. apply existsb_exists. exists fs. split; [exact Hin |].
    destruct (string_dec (case_number fs) (case_number t_case));
      [reflexivity | congruence]. }
  rewrite Hlive. reflexivity.
Qed.

(** X17. With an unchanged update time nothing is assigned to [guid]; if it
    is still unbound when a changed priority or escalation flag reaches the
    first-writer test, the step raises [UnboundLocalError] without having
    called the store or Slack. *)
Theorem unbound_guid_raises (t_case fs_case : case) (s : locals W) :
  update_time t_case = update_time fs_case ->
  comment_list fs_case = comment_list t_case ->
  priority fs_case <> priority t_case
  \/ escalated fs_case <> escalated t_case ->
  guid s = None ->
  update_pair env t_case fs_case s = ([], (Raise UnboundLocalError, s)).
Proof.
  intros Htime Hcomments Hfield Hguid.
  unfold update_pair, refresh_first_writer, comment_check, priority_check,
    escalation_check.
  destruct (string_dec (update_time t_case) (update_time fs_case));
    [| contradiction].
  destruct (comments_eq_dec (comment_list fs_case) (comment_list t_case));
    [| contradiction].
  unfold bind at 1. unfold ret at 1. unfold bind at 1. unfold ret at 1.
  destruct (string_dec (priority fs_case) (priority t_case)) as [Ep |].
  - destruct Hfield as [Hp | He]; [contradiction |].
    destruct (Bool.bool_dec (escalated fs_case) (escalated t_case));
      [contradiction |].
    unfold bind at 1. unfold ret at 1.
    destruct (escalated t_case); unfold bind, guid_is_first; rewrite Hguid;
      reflexivity.
  - unfold bind, guid_is_first. rewrite Hguid. reflexivity.
Qed.

(** X18. When the fetched case has no comment while its snapshot has some,
    the comment check takes element [0] of an empty list: the step raises
    [IndexError]. It has written the case and looked up the first writer
    if the update time differs, and it has notified nothing. *)
Theorem empty_comment_list_raises (t_case fs_case : case) (s : locals W) :
  comment_list t_case = [] ->
  comment_list fs_case <> [] ->
  outcome_of (update_pair env t_case fs_case s) = Raise IndexError
  /\ log_of (update_pair env t_case fs_case s)
     = if string_dec (update_time t_case) (update_time fs_case) then []
       else [AWrite "cases" t_case (written_guid env t_case s);
             AFirstIn (case_number t_case) (update_time t_case)
               (first_writer_record env t_case s)].
Proof.
  intros Hempty Hsome.
  unfold update_pair, refresh_first_writer, comment_check,
    written_guid, first_writer_record.
  rewrite Hempty.
  destruct (comments_eq_dec (comment_list fs_case) []); [contradiction |].
  destruct (string_dec (update_time t_case) (update_time fs_case)).
  - split; reflexivity.
  - unfold bind, write_case, first_in, call, set_guid, set_first_doc_in,
      ret, bind, raise, outcome_of, log_of.
    cbn [world guid first_doc_in].
    destruct (firestore_write env "cases" t_case (world s)) as [g w1].
    cbn [fst snd world].
    destruct (get_firestore_first_in env (case_number t_case)
                (update_time t_case) w1) as [d w2].
    split; reflexivity.
Qed.

(** X19. Update detection does not test [first_doc_in] before subscripting
    it: when the lookup after the write returns no first-writer record and
    the priority or the escalation flag has changed, the step raises
    [TypeError] after the write and the lookup, and notifies nothing. *)
Theorem missing_first_writer_raises (t_case fs_case : case) (s : locals W) :
  update_time t_case <> update_time fs_case ->
  first_writer_record env t_case s = None ->
  comment_list fs_case = comment_list t_case ->
  priority fs_case <> priority t_case
  \/ escalated fs_case <> escalated t_case ->
  outcome_of (update_pair env t_case fs_case s) = Raise TypeError
  /\ log_of (update_pair env t_case fs_case s)
     = [AWrite "cases" t_case (written_guid env t_case s);
        AFirstIn (case_number t_case) (update_time t_case) None].
Proof.
  intros Htime Hnone Hcomments Hfield.
  unfold update_pair, refresh_first_writer, comment_check, priority_check,
    escalation_check, written_guid, first_writer_record in *.
  destruct (string_dec (update_time t_case) (update_time fs_case));
    [contradiction |].
  destruct (comments_eq_dec (comment_list fs_case) (comment_list t_case));
    [| contradiction].
  unfold bind, write_case, first_in, call, set_guid, set_first_doc_in,
    ret, bind, raise, outcome_of, log_of, guid_is_first.
  cbn [world guid first_doc_in].
  destruct (firestore_write env "cases" t_case (world s)) as [g w1].
  cbn [fst snd world] in *.
  destruct (get_firestore_first_in env (case_number t_case)
              (update_time t_case) w1) as [d w2].
  cbn [fst snd world guid first_doc_in] in *. subst d.
  destruct (string_dec (priority fs_case) (priority t_case)) as [Ep |].
  - destruct Hfield as [Hp | He]; [contradiction |].
    destruct (Bool.bool_dec (escalated fs_case) (escalated t_case));
      [contradiction |].
    destruct (escalated t_case); split; reflexivity.
  - split; reflexivity.
Qed.

End UpdateEdges.

(** ** What update detection sends and writes *)

Section UpdateLogs.

Context {W raw : Type} (env : Env W raw).

Lemma subscription_not_update_event temp_cases (a : action) :
  subscription_action a -> update_event temp_cases a.
Proof. intros H subj k p ->. destruct H. Qed.

Lemma update_pair_events (t_case fs_case : case) :
  emits (update_event [t_case]) (update_pair env t_case fs_case).
Proof.
  unfold update_pair.
  apply emits_bind; [| intros _; apply emits_bind; [| intros _;
    apply emits_bind; intros]].
  - unfold refresh_first_writer. emits_auto; intros ? ? ? [=].
  - unfold comment_check.
    destruct (comments_eq_dec _ _); [apply emits_ret |].
    destruct (comment_list t_case) as [| newest older] eqn:Hlist;
      [apply emits_raise |].
    destruct (contains "googleSupport" (creator newest));
      [| apply emits_ret].
    apply emits_gated. intros subj k p [= <- <- <-].
    exists t_case. split; [left; reflexivity |]. split; [reflexivity |].
    exists newest, older. auto.
  - unfold priority_check.
    destruct (string_dec _ _); [apply emits_ret |].
    apply emits_gated. intros subj k p [= <- <- <-].
    exists t_case. split; [left; reflexivity |]. split; reflexivity.
  - unfold escalation_check.
    destruct (Bool.bool_dec _ _); [apply emits_ret |].
    destruct (escalated t_case) eqn:Hesc; apply emits_gated;
      intros subj k p [= <- <- <-]; exists t_case;
      (split; [left; reflexivity |]); cbn [update_event_of]; auto.
Qed.

Lemma match_loop_events (t_case : case) (cases : list case)
  (is_new : bool) :
  emits (update_event [t_case]) (match_loop env t_case cases is_new).
Proof.
  revert is_new. induction cases as [| fs_case rest IH]; intro is_new;
    cbn [match_loop]; [apply emits_ret |].
  destruct (string_dec (case_number t_case) (case_number fs_case));
    [| apply IH].
  apply emits_bind; [apply update_pair_events | intros _; apply IH].
Qed.

Lemma update_case_events (cases : list case) (t_case : case) :
  emits (update_event [t_case]) (update_case env cases t_case).
Proof.
  unfold update_case.
  apply emits_bind; [apply match_loop_events | intros [|]].
  - apply emits_bind; [emits_auto; intros ? ? ? [=] | intros _].
    eapply emits_weaken; [| apply auto_cc_log].
    apply subscription_not_update_event.
  - apply emits_ret.
Qed.

(** X20. Every notification of update detection is about a fetched case
    and has the form its kind prescribes: a comment or priority
    notification names the case by its number and carries the body of the
    newest comment or the new priority; "de-escalated" names the case by
    its number and carries [False]; "escalated" carries [True] and passes
    the whole case dictionary instead of the number. Update detection never
    sends "closed". *)
Theorem update_events_are_well_formed (temp_cases cases : list case) :
  emits (update_event temp_cases) (update_loop env temp_cases cases).
Proof.
  induction temp_cases as [| t_case rest IH]; cbn [update_loop];
    [apply emits_ret |].
  apply emits_bind.
  - eapply emits_weaken; [| apply update_case_events].
    intros a Ha subj k p E. destruct (Ha subj k p E) as (t & Ht & H).
    exists t. destruct Ht as [<- | []]. simpl. auto.
  - intros _. eapply emits_weaken; [| exact IH].
    intros a Ha subj k p E. destruct (Ha subj k p E) as (t & Ht & H).
    exists t. simpl. auto.
Qed.

Lemma update_pair_writes (t_case fs_case : case) :
  case_number t_case = case_number fs_case ->
  emits (update_write [t_case] [fs_case]) (update_pair env t_case fs_case).
Proof.
  intro Hcn.
  unfold update_pair, refresh_first_writer, comment_check, priority_check,
    escalation_check.
  destruct (string_dec (update_time t_case) (update_time fs_case))
    as [| Htime].
  - emits_auto; intros ? ? ? [=].
  - emits_auto; try (intros ? ? ? [=]; fail).
    intros collection c g' [= <- <- <-].
    split; [reflexivity |]. split; [left; reflexivity |].
    right. exists fs_case. split; [left; reflexivity | auto].
Qed.

Lemma match_loop_writes (t_case : case) (cases : list case)
  (is_new : bool) :
  emits (changed_write t_case cases) (match_loop env t_case cases is_new).
Proof.
  revert is_new. induction cases as [| fs_case rest IH]; intro is_new;
    cbn [match_loop]; [apply emits_ret |].
  assert (Hrest : forall b,
             emits (changed_write t_case (fs_case :: rest))
               (match_loop env t_case rest b)).
  { intro b. eapply emits_weaken; [| apply IH].
    intros a Ha collection c g E.
    destruct (Ha collection c g E) as (Hcoll & Hc & fs & Hin & H).
    split; [exact Hcoll |]. split; [exact Hc |]. exists fs. simpl. auto. }
  destruct (string_dec (case_number t_case) (case_number fs_case)) as [E |];
    [| apply Hrest].
  apply emits_bind; [| intros _; apply Hrest].
  eapply emits_weaken; [| apply update_pair_writes; exact E].
  intros a Ha collection c g Ea.
  destruct (Ha collection c g Ea) as (Hcoll & Hc & Hwhy).
  destruct Hc as [<- | []].
  split; [exact Hcoll |]. split; [reflexivity |].
  destruct Hwhy as [Hnone | (fs & [<- | []] & H)].
  - destruct (Hnone fs_case (or_introl eq_refl) E).
  - exists fs_case. simpl. auto.
Qed.

Lemma match_loop_is_new (t_case : case) (cases : list case) :
  forall (is_new : bool) (s s' : locals W) (l : list action),
    match_loop env t_case cases is_new s = (l, (Ok true, s')) ->
    is_new = true
    /\ forall fs_case,
         In fs_case cases -> case_number t_case <> case_number fs_case.
Proof.
  induction cases as [| fs_case rest IH]; intros is_new s s' l Hrun.
  - injection Hrun as _ -> _. split; [reflexivity | intros fs []].
  - cbn [match_loop] in Hrun.
    destruct (string_dec (case_number t_case) (case_number fs_case))
      as [E | N].
    + apply bind_inv in Hrun.
      destruct Hrun as [(l1 & [] & s1 & l2 & _ & Hrun & _) | (e & _ & [=])].
      destruct (IH _ _ _ _ Hrun) as [[=] _].
    + destruct (IH _ _ _ _ Hrun) as [Hnew Hrest].
      split; [exact Hnew |]. intros fs [<- | Hin]; [exact N | auto].
Qed.

Lemma update_case_writes (cases : list case) (t_case : case) :
  emits (update_write [t_case] cases) (update_case env cases t_case).
Proof.
  intro s.
  destruct (update_case env cases t_case s) as [l [o s']] eqn:Hrun.
  unfold log_of. cbn [fst]. unfold update_case in Hrun.
  pose proof (match_loop_writes t_case cases true s) as Hloop.
  unfold log_of in Hloop.
  assert (Hweak : forall a,
             changed_write t_case cases a -> update_write [t_case] cases a).
  { intros a Ha collection c g E.
    destruct (Ha collection c g E) as (Hcoll & -> & Hwhy).
    split; [exact Hcoll |]. split; [left; reflexivity | right; exact Hwhy]. }
  apply bind_inv in Hrun.
  destruct Hrun as [(l1 & is_new & s1 & l2 & H1 & Hrun & ->) | (e & H1 & _)];
    rewrite H1 in Hloop; cbn [fst] in Hloop;
    [| eapply Forall_impl; [exact Hweak | exact Hloop]].
  apply Forall_app. split; [eapply Forall_impl; [exact Hweak | exact Hloop] |].
  destruct is_new.
  - destruct (match_loop_is_new _ _ _ _ _ _ H1) as [_ Hnew].
    apply bind_inv in Hrun.
    pose proof (auto_cc_log env t_case) as Hauto.
    destruct Hrun as [(l3 & g & s2 & l4 & H3 & Hrun & ->) | (e & H3 & _)];
      apply call_inv in H3; destruct H3 as (g0 & Ho & _ & ->);
      [| discriminate Ho].
    specialize (Hauto s2). unfold log_of in Hauto. rewrite Hrun in Hauto.
    cbn [fst] in Hauto. constructor.
    + intros collection c g' [= <- <- <-].
      split; [reflexivity |]. split; [left; reflexivity | left; exact Hnew].
    + eapply Forall_impl; [| exact Hauto].
      intros a Ha collection c g' ->. destruct Ha.
  - injection Hrun as <- _ _. constructor.
Qed.

(** X21. Update detection writes only fetched cases, and only into
    "cases": a case whose number has no snapshot, or a case that has a
    snapshot of its number with another update time. A fetched case whose
    snapshots all carry its update time is never written. *)
Theorem update_writes_are_justified (temp_cases cases : list case) :
  emits (update_write temp_cases cases) (update_loop env temp_cases cases).
Proof.
  induction temp_cases as [| t_case rest IH]; cbn [update_loop];
    [apply emits_ret |].
  apply emits_bind.
  - eapply emits_weaken; [| apply update_case_writes].
    intros a Ha collection c g E.
    destruct (Ha collection c g E) as (Hcoll & [<- | []] & Hwhy).
    split; [exact Hcoll |]. split; [left; reflexivity | exact Hwhy].
  - intros _. eapply emits_weaken; [| exact IH].
    intros a Ha collection c g E.
    destruct (Ha collection c g E) as (Hcoll & Hin & Hwhy).
    split; [exact Hcoll |]. split; [right; exact Hin | exact Hwhy].
Qed.

End UpdateLogs.

(** ** Sleeping and leaving the loop *)

Section LoopControl.

Context {W raw : Type} (env : Env W raw).

Lemma sleeps_app (l1 l2 : list action) :
  sleeps (l1 ++ l2) = sleeps l1 ++ sleeps l2.
Proof.
  induction l1 as [| a l1 IH]; [reflexivity |].
  destruct a; cbn [app sleeps]; rewrite IH; reflexivity.
Qed.

Lemma sleeps_none (P : action -> Prop) (l : list action) :
  (forall n, ~ P (ASleep n)) -> Forall P l -> sleeps l = [].
Proof.
  intros HP. induction 1 as [| a l Ha _ IH]; [reflexivity |].
  destruct a; cbn [sleeps]; try exact IH. destruct (HP _ Ha).
Qed.

Lemma sleeps_deletes (closed : list string) :
  sleeps (map ADelete closed) = [].
Proof. induction closed as [| c rest IH]; [reflexivity | exact IH]. Qed.

Lemma fetch_no_sleep (n : nat) : ~ fetch_action (ASleep n).
Proof. intros []. Qed.

Lemma reconcile_no_sleep (n : nat) : ~ reconcile_action (ASleep n).
Proof. intros []. Qed.

Lemma update_no_sleep (n : nat) : ~ update_action (ASleep n).
Proof. intros []. Qed.

(** X22. An iteration of the loop that returns has slept exactly once: 5
    seconds when the fetch or the parsing failed, and the loop goes on; 10
    seconds when the iteration completed. An iteration that raises has not
    slept. *)
Theorem one_sleep_per_iteration (is_test : bool) (s : locals W) :
  match outcome_of (cycle env is_test s) with
  | Ok f =>
      sleeps (log_of (cycle env is_test s)) = [5] /\ f = Continue
      \/ sleeps (log_of (cycle env is_test s)) = [10]
         /\ f = (if is_test then Break else Continue)
  | Raise _ => sleeps (log_of (cycle env is_test s)) = []
  end.
Proof.
  destruct (cycle_has_shape env is_test s) as
    [head Hl Hhead Ho
    | head body e Hl Hhead Hbody Ho
    | head temp_cases cases closing cases' closed updating Hl Hhead Hrun
        Hupd Ho]; rewrite Ho, Hl.
  - left. rewrite sleeps_app, (sleeps_none _ _ fetch_no_sleep Hhead).
    split; reflexivity.
  - rewrite sleeps_app, (sleeps_none _ _ fetch_no_sleep Hhead),
      (sleeps_none _ _ reconcile_no_sleep Hbody).
    reflexivity.
  - right. rewrite !sleeps_app.
    rewrite (sleeps_none _ _ fetch_no_sleep Hhead).
    rewrite (sleeps_none _ _ reconcile_no_sleep
               (closure_run_log _ _ _ _ _ Hrun)).
    rewrite (sleeps_none _ _ update_no_sleep Hupd).
    cbn [sleeps app]. rewrite sleeps_deletes. split; reflexivity.
Qed.

Lemma break_needs_test (is_test : bool) (s : locals W) :
  outcome_of (cycle env is_test s) = Ok Break -> is_test = true.
Proof.
  destruct (cycle_has_shape env is_test s) as
    [head _ _ Ho | head body e _ _ _ Ho
    | head temp_cases cases closing cases' closed updating _ _ _ _ Ho];
    rewrite Ho; [discriminate | discriminate |].
  destruct is_test; [reflexivity | discriminate].
Qed.

(** X23. [case_updates] is left by [break] only in test mode: with
    [is_test] false the loop never returns, it runs until an exception
    escapes. *)
Theorem only_the_test_loop_breaks (fuel : nat) (is_test : bool)
  (s : locals W) :
  outcome_of (case_updates env fuel is_test s) = Ok true -> is_test = true.
Proof.
  revert s. induction fuel as [| fuel IH]; intros s H; [discriminate H |].
  destruct (case_updates env (S fuel) is_test s) as [l [o s']] eqn:Hrun.
  unfold outcome_of in H. cbn [fst snd] in H. subst o.
  cbn [case_updates] in Hrun. apply bind_inv in Hrun.
  destruct Hrun as [(l1 & f & s1 & l2 & H1 & Hrun & _) | (e & _ & [=])].
  destruct f.
  - apply (IH s1). rewrite Hrun. reflexivity.
  - apply (break_needs_test is_test s). rewrite H1. reflexivity.
Qed.

End LoopControl.

(** ** Nothing to do, and work left undone *)

Section Quiet.

Context {W raw : Type} (env : Env W raw).

Lemma update_loop_quiet (temp_cases cases : list case) (s : locals W) :
  (forall t_case,
      In t_case temp_cases ->
      (exists fs_case,
          In fs_case cases /\ case_number t_case = case_number fs_case)
      /\ forall fs_case,
           In fs_case cases -> case_number t_case = case_number fs_case ->
           same_fields t_case fs_case) ->
  update_loop env temp_cases cases s = ([], (Ok tt, s)).
Proof.
  induction temp_cases as [| t_case rest IH]; intro Hsame; [reflexivity |].
  destruct (Hsame t_case (or_introl eq_refl)) as [(fs & Hin & E) Hfields].
  cbn [update_loop]. unfold bind at 1. unfold update_case. unfold bind at 1.
  rewrite (match_loop_same env _ _ _ Hfields).
  assert (Hlive : in_live cases t_case = true).
  { unfold in_live. apply existsb_exists. exists fs. split; [exact Hin |].
    destruct (string_dec (case_number fs) (case_number t_case));
      [reflexivity | congruence]. }
  rewrite Hlive. cbn [andb negb]. unfold ret at 1.
  rewrite IH; [reflexivity |].
  intros t Ht. apply Hsame. right. exact Ht.
Qed.

(** X24. When nothing has changed, reconciling costs nothing: if every
    snapshot is marked with the sentinel or has a fetched case of its
    number, and every fetched case has a snapshot and agrees with all
    snapshots of its number on update time, comments, priority and
    escalation, then closure detection and update detection together make
    no call to the store, to Slack or to the APIs, and leave the snapshots
    and the local variables as they were. *)
Theorem steady_state_is_quiet (temp_cases cases : list case)
  (s : locals W) :
  (forall fs_case,
      In fs_case cases ->
      update_time fs_case = SENTINEL
      \/ exists t_case,
           In t_case temp_cases
           /\ case_number t_case = case_number fs_case) ->
  (forall t_case,
      In t_case temp_cases ->
      (exists fs_case,
          In fs_case cases /\ case_number t_case = case_number fs_case)
      /\ forall fs_case,
           In fs_case cases -> case_number t_case = case_number fs_case ->
           same_fields t_case fs_case) ->
  closure_loop env temp_cases cases s = ([], (Ok (cases, []), s))
  /\ update_loop env temp_cases cases s = ([], (Ok tt, s)).
Proof.
  intros Hpresent Hsame. split; [| apply update_loop_quiet; exact Hsame].
  apply closure_loop_quiet. intros fs Hin.
  destruct (delete_entry temp_cases fs) eqn:Hdel; [| reflexivity].
  apply delete_entry_iff in Hdel. destruct Hdel as [Hut Habsent].
  destruct (Hpresent fs Hin) as [E | (t & Ht & E)];
    [contradiction | destruct (Habsent t Ht E)].
Qed.

(** X25. An iteration that raises deletes nothing: the cases that closure
    detection has queued in [closed_cases], and announced as closed, are
    not deleted when update detection or [auto_cc] raises afterwards. *)
Theorem raising_iteration_deletes_nothing (is_test : bool) (s : locals W)
  (e : exn) :
  outcome_of (cycle env is_test s) = Raise e ->
  deletions (log_of (cycle env is_test s)) = [].
Proof.
  intro Hraise.
  destruct (cycle_has_shape env is_test s) as
    [head _ _ Ho
    | head body e' Hl Hhead Hbody _
    | head temp_cases cases closing cases' closed updating _ _ _ _ Ho].
  - rewrite Ho in Hraise. discriminate.
  - rewrite Hl, deletions_app.
    rewrite (deletions_none _ _ fetch_not_delete Hhead).
    rewrite (deletions_none _ _ reconcile_not_delete Hbody).
    reflexivity.
  - rewrite Ho in Hraise. discriminate.
Qed.

(** X26. When the parent of the project has no [organizations/...] match,
    the first half of [auto_cc] returns with [org_id] [None], and the
    organization check that follows subscribes nobody, whatever
    organizations the channel tracks: it reads the channel's collection and
    returns the empty list. *)
Theorem no_organization_subscribes_nobody (case_num channel : string)
  (s : locals W) (parent m above : string) (items : list asset_item)
  (w1 w2 w3 : W) :
  get_parent env case_num (world s) = (Ok parent, w1) ->
  re_search "projects/" not_slash parent = Some m ->
  projects_get env m w1 = (Ok (mkProject (Some above)), w2) ->
  re_search "organizations/" is_digit above = None ->
  asset_collection env channel "organizations" w2 = (items, w3) ->
  exists h,
    resolve_hierarchy env case_num s
      = ([AGetParent case_num; AProjectGet m],
         (Ok (Some h), mkLocals w2 (guid s) (first_doc_in s)))
    /\ h_org_id h = None
    /\ tracking_check env channel "organizations" (h_org_id h) case_num
         (mkLocals w2 (guid s) (first_doc_in s))
       = ([], (Ok [], mkLocals w3 (guid s) (first_doc_in s))).
Proof.
  intros Hparent Hsearch Hproject Horg Hitems.
  destruct (project_match_shape _ _ Hsearch) as (id & Hm & _ & _ & Hsplit).
  exists (mkHierarchy None (re_findall "folders/" not_slash above) id).
  split; [| split; [reflexivity |]].
  - unfold resolve_hierarchy. unfold bind at 1. unfold attempt at 1.
    unfold call at 1. rewrite Hparent.
    unfold bind at 1. cbn [reraise]. unfold ret at 1. rewrite Hsearch.
    unfold bind at 1. unfold attempt at 1. unfold call at 1. cbn [world].
    rewrite Hproject. cbn [project_parent].
    unfold bind at 1. unfold second_segment at 1. rewrite Hsplit.
    cbn [nth_error]. unfold ret at 1. rewrite Horg. reflexivity.
  - cbn [h_org_id].
    apply (tracking_check_no_match env channel "organizations" None case_num
             items (mkLocals w2 (guid s) (first_doc_in s)) w3 Hitems).
    intros item _ [=].
Qed.

End Quiet.

(** ** More runs on concrete worlds *)

Section MoreRuns.

Import Examples.

(** Witness of X1. *)
Lemma matched_path_splits_in_two_witness :
  re_search "projects/" not_slash "projects/p-1/cases/42"
    = Some "projects/p-1"
  /\ exists id,
       "projects/p-1" = ("projects/" ++ id)%string /\ id <> EmptyString
       /\ string_forall not_slash id = true
       /\ nth_error (split_slash "projects/p-1") 1 = Some id
       /\ List.length (split_slash "projects/p-1") = 2.
Proof.
  split; [reflexivity |].
  apply (proj1 matched_path_splits_in_two "projects/p-1/cases/42"
           "projects/p-1").
  reflexivity.
Defined.

(** Witness of X2: project p1 under organization 123. *)
Lemma resolve_hierarchy_succeeds_witness :
  exists id org,
    "projects/p1" = ("projects/" ++ id)%string
    /\ resolve_hierarchy Sim.env "A" (Sim.start new_case_world)
       = ([AGetParent "A"; AProjectGet "projects/p1"],
          (Ok (Some (mkHierarchy org
                       (re_findall "folders/" not_slash "organizations/123")
                       id)),
           mkLocals new_case_world (guid (Sim.start new_case_world))
             (first_doc_in (Sim.start new_case_world))))
    /\ (org = None
        /\ re_search "organizations/" is_digit "organizations/123" = None
        \/ exists digits,
             org = Some digits
             /\ re_search "organizations/" is_digit "organizations/123"
                = Some ("organizations/" ++ digits)%string).
Proof.
  apply (resolve_hierarchy_succeeds Sim.env "A" (Sim.start new_case_world)
           "projects/p1" "projects/p1" "organizations/123" new_case_world
           new_case_world); reflexivity.
Defined.

Example resolve_hierarchy_run :
  outcome_of (resolve_hierarchy Sim.env "A" (Sim.start folder_world))
  = Ok (Some (mkHierarchy None ["folders/55"] "p1")).
Proof. reflexivity. Qed.

(** Witness of X3. *)
Lemma parent_without_project_raises_witness :
  auto_cc Sim.env caseA (Sim.start org_case_world)
  = ([AGetParent "A"], (Raise AttributeError, Sim.start org_case_world)).
Proof.
  apply (parent_without_project_raises Sim.env caseA
           (Sim.start org_case_world) ["CH1"] "organizations/77"
           org_case_world org_case_world); reflexivity.
Defined.

(** Witness of X4. *)
Lemma project_without_parent_raises_witness :
  auto_cc Sim.env caseA (Sim.start orphan_project_world)
  = ([AGetParent "A"; AProjectGet "projects/p1"],
     (Raise KeyError, Sim.start orphan_project_world)).
Proof.
  apply (project_without_parent_raises Sim.env caseA
           (Sim.start orphan_project_world) ["CH1"] "projects/p1"
           "projects/p1" orphan_project_world orphan_project_world
           orphan_project_world); reflexivity.
Defined.

(** Witness of X5: the second document of folder 55 is ignored. *)
Lemma tracking_check_uses_first_match_witness :
  tracking_check Sim.env "CH1" "folders" (Some "folders/55") "A"
    (Sim.start folder_world)
  = ([ASubscribe "CH1" "A" ["ann@example.com"; "bob@example.com"] "U1"
        ["ann@example.com"; "bob@example.com"]],
     (Ok ["ann@example.com"; "bob@example.com"], Sim.start folder_world)).
Proof.
  apply (tracking_check_uses_first_match Sim.env "CH1" "folders"
           "folders/55" "A" [folder9] [folder55_again] folder55
           ["ann@example.com"; "bob@example.com"] (Sim.start folder_world)
           folder_world folder_world).
  - reflexivity.
  - intros i [<- | []]. discriminate.
  - reflexivity.
  - reflexivity.
Defined.

(** Witness of X6: channel CH1 tracks no asset for folder 77. *)
Lemma untracked_folder_raises_witness :
  folder_loop Sim.env "CH1" "A" ["folders/77"; "folders/55"] []
    (Sim.start folder_world)
  = ([], (Raise IndexError, Sim.start folder_world)).
Proof.
  apply (untracked_folder_raises Sim.env "CH1" "A" "folders/77"
           ["folders/55"] [] [folder9; folder55; folder55_again]
           (Sim.start folder_world) folder_world).
  - reflexivity.
  - intros item [<- | [<- | [<- | []]]]; discriminate.
Defined.

(** Witness of X7: of the two new addresses of folder 55 the first is
    kept, as its characters. *)
Lemma folder_emails_are_characters_witness :
  folder_loop Sim.env "CH1" "A" ["folders/55"] [] (Sim.start folder_world)
  = ([ASubscribe "CH1" "A" ["ann@example.com"; "bob@example.com"] "U1"
        ["ann@example.com"; "bob@example.com"]],
     (Ok ([] ++ chars "ann@example.com"), Sim.start folder_world)).
Proof.
  apply (folder_emails_are_characters Sim.env "CH1" "A" "folders/55" []
           [folder9] [folder55_again] folder55 "ann@example.com"
           ["bob@example.com"] (Sim.start folder_world) folder_world
           folder_world).
  - reflexivity.
  - intros i [<- | []]. discriminate.
  - reflexivity.
  - reflexivity.
Defined.

(** Witness of X8: two channels, none of which tracks an asset of the
    case. *)
Lemma one_comment_per_channel_witness :
  outcome_of
    (channel_loop Sim.env "A" (Some "123") [] "p1" ["CH1"; "CH2"]
       (Sim.start new_case_world)) = Ok tt
  /\ commented_channels
       (log_of
          (channel_loop Sim.env "A" (Some "123") [] "p1" ["CH1"; "CH2"]
             (Sim.start new_case_world)))
     = ["CH1"; "CH2"].
Proof.
  split; [reflexivity |].
  apply (one_comment_per_channel Sim.env "A" (Some "123") [] "p1"
           ["CH1"; "CH2"] (Sim.start new_case_world)).
  reflexivity.
Defined.

(** Witness of X9. *)
Lemma fetch_failure_defers_the_cycle_witness :
  cycle Sim.env true (Sim.start offline_world)
    = ([AGetCases; ASearch; ALog BrokenPipeError; ASleep 5],
       (Ok Continue, Sim.start offline_world))
  /\ forall fuel,
       log_of (case_updates Sim.env (S fuel) true (Sim.start offline_world))
         = [AGetCases; ASearch; ALog BrokenPipeError; ASleep 5]
           ++ log_of (case_updates Sim.env fuel true
                        (Sim.start offline_world))
       /\ outcome_of
            (case_updates Sim.env (S fuel) true (Sim.start offline_world))
          = outcome_of
              (case_updates Sim.env fuel true (Sim.start offline_world)).
Proof.
  apply (fetch_failure_defers_the_cycle Sim.env true
           (Sim.start offline_world) offline_world).
  reflexivity.
Defined.

(** Witness of X10. *)
Lemma parse_keeps_the_order_witness :
  parse_loop Sim.env [Ok caseB; Ok caseA] [] (Sim.start closing_world)
    = ([], (Ok (Some ([] ++ [caseB; caseA])), Sim.start closing_world))
  /\ List.length [caseB; caseA] = List.length [Ok caseB; Ok caseA].
Proof.
  apply (parse_keeps_the_order Sim.env [Ok caseB; Ok caseA] []
           [caseB; caseA] (Sim.start closing_world) closing_world).
  reflexivity.
Defined.

(** Witness of X11: the second fetched case raises [KeyError]. *)
Lemma unhandled_parse_error_ends_the_loop_witness :
  cycle Sim.env false (Sim.start missing_key_world)
    = ([AGetCases; ASearch], (Raise KeyError, Sim.start missing_key_world))
  /\ forall fuel,
       case_updates Sim.env (S fuel) false (Sim.start missing_key_world)
       = ([AGetCases; ASearch],
          (Raise KeyError, Sim.start missing_key_world)).
Proof.
  apply (unhandled_parse_error_ends_the_loop Sim.env false
           (Sim.start missing_key_world) [Ok caseB] [Ok caseA]
           (Raise KeyError) KeyError [caseB] missing_key_world
           missing_key_world missing_key_world); reflexivity.
Defined.

(** Witness of X14: case A is new beside the snapshot of B. *)
Lemma new_case_is_written_once_witness :
  update_case Sim.env [caseB] caseA (Sim.start broken_pipe_world)
    = (AWrite "cases" caseA
         (fst (firestore_write Sim.env "cases" caseA
                 (world (Sim.start broken_pipe_world))))
       :: log_of
            (auto_cc Sim.env caseA
               (mkLocals
                  (snd (firestore_write Sim.env "cases" caseA
                          (world (Sim.start broken_pipe_world))))
                  (guid (Sim.start broken_pipe_world))
                  (first_doc_in (Sim.start broken_pipe_world)))),
       snd (auto_cc Sim.env caseA
              (mkLocals
                 (snd (firestore_write Sim.env "cases" caseA
                         (world (Sim.start broken_pipe_world))))
                 (guid (Sim.start broken_pipe_world))
                 (first_doc_in (Sim.start broken_pipe_world)))))
  /\ writes (log_of (update_case Sim.env [caseB] caseA
                       (Sim.start broken_pipe_world))) = [caseA]
  /\ Forall (fun a => ~ is_notification a)
       (log_of (update_case Sim.env [caseB] caseA
                  (Sim.start broken_pipe_world))).
Proof.
  apply (new_case_is_written_once Sim.env [caseB] caseA
           (Sim.start broken_pipe_world)).
  intros fs [<- | []]. discriminate.
Defined.

(** Witness of X15: case B is fetched as its snapshot has it. *)
Lemma unchanged_case_is_silent_witness :
  update_case Sim.env [caseA; caseB] caseB (Sim.start closing_world)
  = ([], (Ok tt, Sim.start closing_world)).
Proof.
  apply (unchanged_case_is_silent Sim.env [caseA; caseB] caseB
           (Sim.start closing_world)).
  - exists caseB. split; [right; left; reflexivity | reflexivity].
  - intros fs [<- | [<- | []]] E; [discriminate E |].
    repeat split.
Defined.

(** Witness of X16: the variables hold the outcome of an earlier write. *)
Lemma stale_first_writer_notifies_witness :
  log_of (update_pair Sim.env caseB_same_time caseB
            (after_winning glitch_world))
    = [ANotify (ByNumber "B") Priority (PStr "P1")]
  /\ outcome_of (update_pair Sim.env caseB_same_time caseB
                   (after_winning glitch_world)) = Ok tt.
Proof.
  apply (stale_first_writer_notifies Sim.env caseB_same_time caseB
           (after_winning glitch_world) (mkFirstDoc "guid-0"));
    try reflexivity.
  discriminate.
Defined.

(** Witness of X17: the same fetched case at the start of the loop. *)
Lemma unbound_guid_raises_witness :
  update_pair Sim.env caseB_same_time caseB (Sim.start glitch_world)
  = ([], (Raise UnboundLocalError, Sim.start glitch_world)).
Proof.
  apply (unbound_guid_raises Sim.env caseB_same_time caseB
           (Sim.start glitch_world)); try reflexivity.
  left. discriminate.
Defined.

(** Witness of X18: the snapshot of A has a comment, the fetched case has
    none. *)
Lemma empty_comment_list_raises_witness :
  outcome_of (update_pair Sim.env caseA_later caseA_busy
                (Sim.start closing_world)) = Raise IndexError
  /\ log_of (update_pair Sim.env caseA_later caseA_busy
               (Sim.start closing_world))
     = if string_dec (update_time caseA_later) (update_time caseA_busy)
       then []
       else [AWrite "cases" caseA_later
               (written_guid Sim.env caseA_later (Sim.start closing_world));
             AFirstIn (case_number caseA_later) (update_time caseA_later)
               (first_writer_record Sim.env caseA_later
                  (Sim.start closing_world))].
Proof.
  apply (empty_comment_list_raises Sim.env caseA_later caseA_busy
           (Sim.start closing_world)); [reflexivity | discriminate].
Defined.

(** Witness of X19: the store does not show the first-writer record
    yet. *)
Lemma missing_first_writer_raises_witness :
  outcome_of (update_pair lagging_env caseA_urgent caseA
                (Sim.start closing_world)) = Raise TypeError
  /\ log_of (update_pair lagging_env caseA_urgent caseA
               (Sim.start closing_world))
     = [AWrite "cases" caseA_urgent
          (written_guid lagging_env caseA_urgent (Sim.start closing_world));
        AFirstIn (case_number caseA_urgent) (update_time caseA_urgent) None].
Proof.
  apply (missing_first_writer_raises lagging_env caseA_urgent caseA
           (Sim.start closing_world)); try reflexivity;
    [discriminate | left; discriminate].
Defined.

(** With the store of [Sim.env] the same update is notified. *)
Example first_writer_found :
  log_of (update_pair Sim.env caseA_urgent caseA (Sim.start closing_world))
  = [AWrite "cases" caseA_urgent "guid-0";
     AFirstIn "A" "T1" (Some (mkFirstDoc "guid-0"));
     ANotify (ByNumber "A") Priority (PStr "P1")].
Proof. reflexivity. Qed.

(** Witness of X23: in test mode the loop is left after the iteration. *)
Lemma only_the_test_loop_breaks_witness :
  outcome_of (case_updates Sim.env 1 true (Sim.start closing_world))
    = Ok true
  /\ true = true.
Proof.
  split; [reflexivity |].
  apply (only_the_test_loop_breaks Sim.env 1 true (Sim.start closing_world)).
  reflexivity.
Defined.

(** Witness of X24: the snapshot of A is marked, case B is fetched as its
    snapshot has it. *)
Lemma steady_state_is_quiet_witness :
  closure_loop Sim.env [caseB] [caseA_marked; caseB] (Sim.start marked_world)
    = ([], (Ok ([caseA_marked; caseB], []), Sim.start marked_world))
  /\ update_loop Sim.env [caseB] [caseA_marked; caseB]
       (Sim.start marked_world)
     = ([], (Ok tt, Sim.start marked_world)).
Proof.
  apply (steady_state_is_quiet Sim.env [caseB] [caseA_marked; caseB]
           (Sim.start marked_world)).
  - intros fs [<- | [<- | []]]; [left; reflexivity | right].
    exists caseB. split; [left; reflexivity | reflexivity].
  - intros t [<- | []]. split.
    + exists caseB. split; [right; left; reflexivity | reflexivity].
    + intros fs [<- | [<- | []]] E; [discriminate E | repeat split].
Defined.

(** Witness of X25: case A is announced as closed and queued, then the new
    case B makes [auto_cc] raise. *)
Lemma raising_iteration_deletes_nothing_witness :
  outcome_of (cycle Sim.env true (Sim.start closing_then_failing_world))
    = Raise AttributeError
  /\ deletions
       (log_of (cycle Sim.env true (Sim.start closing_then_failing_world)))
     = [].
Proof.
  split; [reflexivity |].
  apply (raising_iteration_deletes_nothing Sim.env true
           (Sim.start closing_then_failing_world) AttributeError).
  reflexivity.
Defined.

Example closed_but_not_deleted :
  log_of (cycle Sim.env true (Sim.start closing_then_failing_world))
  = [AGetCases; ASearch;
     AWrite "cases" caseA_marked "guid-0";
     AFirstIn "A" SENTINEL (Some (mkFirstDoc "guid-0"));
     ANotify (ByNumber "A") Closed (PStr "");
     AWrite "cases" caseB "guid-1";
     AGetParent "B"].
Proof. reflexivity. Qed.

(** Witness of X26: the project lies under a folder only, and the channel
    tracks two organizations. *)
Lemma no_organization_subscribes_nobody_witness :
  asset_collection Sim.env "CH1" "organizations" folder_only_world
    = ([org123; org456], folder_only_world)
  /\ exists h,
       resolve_hierarchy Sim.env "A" (Sim.start folder_only_world)
         = ([AGetParent "A"; AProjectGet "projects/p1"],
            (Ok (Some h),
             mkLocals folder_only_world
               (guid (Sim.start folder_only_world))
               (first_doc_in (Sim.start folder_only_world))))
       /\ h_org_id h = None
       /\ tracking_check Sim.env "CH1" "organizations" (h_org_id h) "A"
            (mkLocals folder_only_world
               (guid (Sim.start folder_only_world))
               (first_doc_in (Sim.start folder_only_world)))
          = ([], (Ok [],
                  mkLocals folder_only_world
                    (guid (Sim.start folder_only_world))
                    (first_doc_in (Sim.start folder_only_world)))).
Proof.
  split; [reflexivity |].
  apply (no_organization_subscribes_nobody Sim.env "A" "CH1"
           (Sim.start folder_only_world) "projects/p1" "projects/p1"
           "folders/55" [org123; org456] folder_only_world
           folder_only_world folder_only_world); reflexivity.
Defined.

(** In that world a project under organization 123 would subscribe the
    watchers of the first tracked organization. *)
Example organization_check_subscribes :
  log_of (tracking_check Sim.env "CH1" "organizations" (Some "123") "A"
            (Sim.start folder_only_world))
  = [ASubscribe "CH1" "A" ["ops@example.com"] "U1" ["ops@example.com"]].
Proof. reflexivity. Qed.

End MoreRuns.
